(** * Protocol viewer (src/app/page.tsx): loader and audio playback controller

    A shallow embedding of the [ProtocolViewer] component.  The React state
    of the component is a record [State]; every handler of the source is a
    function from the state it was rendered with to the state after its
    queued updates have been applied.  A handler therefore reads the
    render-time values of [audioRefs], [playingAudio], ... (the constants of
    its closure) and only its [set...] calls change them.

    Audio elements are objects with identity: they live in a store
    ([elements]) and [audioRefs] maps a protocol type to a handle.

    JavaScript numbers are idealised as rationals ([Qc]); the value [NaN] of
    [audio.duration] before the metadata has arrived is [None]. *)

From stdpp Require Import base strings list gmap numbers pretty.
From Stdlib Require Import Ascii QArith Qcanon Qround Lqa.

Close Scope Qc_scope.
Close Scope Q_scope.
Open Scope string_scope.

(** ** Data model (lines 10-46) *)

Record Intervention := {
  name : string;
  number : Z;
  action : string;
  frequency : option string;
  time : option string;
  scientific_rationale : string;
  details : list (string * string);
  parameters : list (string * string);
  target_biomarkers : list (string * string);
  ranking : Z;
  personalized_note : option string;
  lifestyle_context : option string
}.

Record Protocol := {
  protocol_type : string;
  title : string;
  interventions : list Intervention;
  total_interventions : Z
}.

Record User := {
  id : string;
  user_name : string;
  initials : string;
  description : string
}.

Global Instance User_eq_dec : EqDecision User.
Proof. solve_decision. Defined.

Definition users : list User := [
  {| id := "nik"; user_name := "Nik"; initials := "N";
     description := "33-year-old male, active lifestyle" |};
  {| id := "tyler"; user_name := "Tyler"; initials := "T";
     description := "Active male, comprehensive data" |};
  {| id := "katie"; user_name := "Katie"; initials := "K";
     description := "40-year-old female, postpartum" |};
  {| id := "arnav"; user_name := "Arnav"; initials := "A";
     description := "19-year-old male, vegetarian athlete" |} ].

Definition default_user : User := default
  {| id := ""; user_name := ""; initials := ""; description := "" |} (users !! 0%nat).

(** ** [getAudioFile] (lines 89-100) *)

Definition getAudioFile (type userId : string) : string :=
  if decide (type = "exercise") then "/data/" +:+ userId +:+ "_exercise.mp3"
  else if decide (type = "nutrition") then "/data/" +:+ userId +:+ "_nutrition.mp3"
  else if decide (type = "supplements") then "/data/" +:+ userId +:+ "_supplements.mp3"
  else "".

(** ** Numbers *)

Definition hundred : Qc := Qc_of_Z 100.

(** ** The audio elements

    What the component uses of an [HTMLAudioElement]: its source, the
    [paused] attribute ([play()] clears it, [pause()] sets it), the playback
    position and the duration.  [listener_key] is not an attribute of the
    element: it is the [protocolType] captured by the five listeners that
    [handlePlayPause] attaches when it creates the element. *)

Record HTMLAudioElement := {
  src : string;
  paused : bool;
  currentTime : Qc;
  duration : option Qc;
  listener_key : string
}.

Definition new_Audio (audioFile protocolType : string) : HTMLAudioElement :=
  {| src := audioFile; paused := true; currentTime := 0%Qc; duration := None;
     listener_key := protocolType |}.

Definition with_paused (b : bool) (a : HTMLAudioElement) : HTMLAudioElement :=
  {| src := src a; paused := b; currentTime := currentTime a;
     duration := duration a; listener_key := listener_key a |}.

Definition with_currentTime (t : Qc) (a : HTMLAudioElement) : HTMLAudioElement :=
  {| src := src a; paused := paused a; currentTime := t;
     duration := duration a; listener_key := listener_key a |}.

Definition with_duration (d : option Qc) (a : HTMLAudioElement) : HTMLAudioElement :=
  {| src := src a; paused := paused a; currentTime := currentTime a;
     duration := d; listener_key := listener_key a |}.

(** [audio.duration] used as a condition: [NaN] and [0] are falsy. *)
Definition duration_truthy (a : HTMLAudioElement) : option Qc :=
  match duration a with
  | Some d => if decide (d = 0%Qc) then None else Some d
  | None => None
  end.

(** ** The state of the component (lines 143-153) *)

Record State := {
  selectedUser : User;
  selectedIntervention : option Intervention;
  selectedProtocol : option Protocol;
  protocols : list Protocol;
  loading : bool;
  error : option string;
  playingAudio : option string;
  audioRefs : gmap string nat;
  audioProgress : gmap string Qc;
  audioDuration : gmap string (option Qc);
  showUserSelector : bool
}.

Definition setSelectedUser (v : User) (s : State) : State :=
  {| selectedUser := v; selectedIntervention := selectedIntervention s;
     selectedProtocol := selectedProtocol s; protocols := protocols s;
     loading := loading s; error := error s; playingAudio := playingAudio s;
     audioRefs := audioRefs s; audioProgress := audioProgress s;
     audioDuration := audioDuration s; showUserSelector := showUserSelector s |}.

Definition setSelectedIntervention (v : option Intervention) (s : State) : State :=
  {| selectedUser := selectedUser s; selectedIntervention := v;
     selectedProtocol := selectedProtocol s; protocols := protocols s;
     loading := loading s; error := error s; playingAudio := playingAudio s;
     audioRefs := audioRefs s; audioProgress := audioProgress s;
     audioDuration := audioDuration s; showUserSelector := showUserSelector s |}.

Definition setSelectedProtocol (v : option Protocol) (s : State) : State :=
  {| selectedUser := selectedUser s; selectedIntervention := selectedIntervention s;
     selectedProtocol := v; protocols := protocols s;
     loading := loading s; error := error s; playingAudio := playingAudio s;
     audioRefs := audioRefs s; audioProgress := audioProgress s;
     audioDuration := audioDuration s; showUserSelector := showUserSelector s |}.

Definition setProtocols (v : list Protocol) (s : State) : State :=
  {| selectedUser := selectedUser s; selectedIntervention := selectedIntervention s;
     selectedProtocol := selectedProtocol s; protocols := v;
     loading := loading s; error := error s; playingAudio := playingAudio s;
     audioRefs := audioRefs s; audioProgress := audioProgress s;
     audioDuration := audioDuration s; showUserSelector := showUserSelector s |}.

Definition setLoading (v : bool) (s : State) : State :=
  {| selectedUser := selectedUser s; selectedIntervention := selectedIntervention s;
     selectedProtocol := selectedProtocol s; protocols := protocols s;
     loading := v; error := error s; playingAudio := playingAudio s;
     audioRefs := audioRefs s; audioProgress := audioProgress s;
     audioDuration := audioDuration s; showUserSelector := showUserSelector s |}.

Definition setError (v : option string) (s : State) : State :=
  {| selectedUser := selectedUser s; selectedIntervention := selectedIntervention s;
     selectedProtocol := selectedProtocol s; protocols := protocols s;
     loading := loading s; error := v; playingAudio := playingAudio s;
     audioRefs := audioRefs s; audioProgress := audioProgress s;
     audioDuration := audioDuration s; showUserSelector := showUserSelector s |}.

Definition setPlayingAudio (v : option string) (s : State) : State :=
  {| selectedUser := selectedUser s; selectedIntervention := selectedIntervention s;
     selectedProtocol := selectedProtocol s; protocols := protocols s;
     loading := loading s; error := error s; playingAudio := v;
     audioRefs := audioRefs s; audioProgress := audioProgress s;
     audioDuration := audioDuration s; showUserSelector := showUserSelector s |}.

Definition setAudioRefs (f : gmap string nat → gmap string nat) (s : State) : State :=
  {| selectedUser := selectedUser s; selectedIntervention := selectedIntervention s;
     selectedProtocol := selectedProtocol s; protocols := protocols s;
     loading := loading s; error := error s; playingAudio := playingAudio s;
     audioRefs := f (audioRefs s); audioProgress := audioProgress s;
     audioDuration := audioDuration s; showUserSelector := showUserSelector s |}.

Definition setAudioProgress (f : gmap string Qc → gmap string Qc) (s : State) : State :=
  {| selectedUser := selectedUser s; selectedIntervention := selectedIntervention s;
     selectedProtocol := selectedProtocol s; protocols := protocols s;
     loading := loading s; error := error s; playingAudio := playingAudio s;
     audioRefs := audioRefs s; audioProgress := f (audioProgress s);
     audioDuration := audioDuration s; showUserSelector := showUserSelector s |}.

Definition setAudioDuration
    (f : gmap string (option Qc) → gmap string (option Qc)) (s : State) : State :=
  {| selectedUser := selectedUser s; selectedIntervention := selectedIntervention s;
     selectedProtocol := selectedProtocol s; protocols := protocols s;
     loading := loading s; error := error s; playingAudio := playingAudio s;
     audioRefs := audioRefs s; audioProgress := audioProgress s;
     audioDuration := f (audioDuration s); showUserSelector := showUserSelector s |}.

Definition setShowUserSelector (v : bool) (s : State) : State :=
  {| selectedUser := selectedUser s; selectedIntervention := selectedIntervention s;
     selectedProtocol := selectedProtocol s; protocols := protocols s;
     loading := loading s; error := error s; playingAudio := playingAudio s;
     audioRefs := audioRefs s; audioProgress := audioProgress s;
     audioDuration := audioDuration s; showUserSelector := v |}.

(** ** The component together with what lives outside the React state

    [elements] is the store of audio elements ever created ([new Audio] gives
    the next free handle); [inflight] lists the user ids of the
    [loadProtocols] calls that have been started and have not settled. *)

Record World := {
  ui : State;
  elements : list HTMLAudioElement;
  inflight : list string
}.

Definition with_ui (f : State → State) (w : World) : World :=
  {| ui := f (ui w); elements := elements w; inflight := inflight w |}.

Definition with_elements
    (f : list HTMLAudioElement → list HTMLAudioElement) (w : World) : World :=
  {| ui := ui w; elements := f (elements w); inflight := inflight w |}.

Definition with_inflight (f : list string → list string) (w : World) : World :=
  {| ui := ui w; elements := elements w; inflight := f (inflight w) |}.

(** [a.pause()] and [a.play()] on the element with handle [a]. *)
Definition el_pause (a : nat) (els : list HTMLAudioElement) : list HTMLAudioElement :=
  alter (with_paused true) a els.

Definition el_play (a : nat) (els : list HTMLAudioElement) : list HTMLAudioElement :=
  alter (with_paused false) a els.

(** [Object.values(audioRefs).forEach(a => { if (a && a !== audio) a.pause() })] *)
Definition pause_others (refs : gmap string nat) (audio : nat)
    (els : list HTMLAudioElement) : list HTMLAudioElement :=
  foldr (λ a acc, if decide (a ≠ audio) then el_pause a acc else acc)
        els ((map_to_list refs).*2).

(** ** The listeners attached to a new element (lines 199-221)

    Each takes the [protocolType] and, where it reads it, the element
    captured by its closure. *)

Definition on_ended (protocolType : string) (s : State) : State :=
  setAudioProgress (λ prev, <[protocolType := 0%Qc]> prev) (setPlayingAudio None s).

Definition on_pause (s : State) : State := setPlayingAudio None s.

Definition on_loadedmetadata (protocolType : string) (audio : HTMLAudioElement)
    (s : State) : State :=
  setAudioDuration (λ prev, <[protocolType := duration audio]> prev) s.

Definition on_timeupdate (protocolType : string) (audio : HTMLAudioElement)
    (s : State) : State :=
  match duration_truthy audio with
  | Some d =>
      let progress := ((currentTime audio / d) * hundred)%Qc in
      setAudioProgress (λ prev, <[protocolType := progress]> prev) s
  | None => s
  end.

Definition on_error (s : State) : State := setPlayingAudio None s.

(** The handler of the rejected promise of [audio.play()] (lines 257-260). *)
Definition on_play_rejected (s : State) : State := setPlayingAudio None s.

(** ** [handlePlayPause] (lines 190-267)

    [audioRefs] and [playingAudio] are the values of the render the handler
    belongs to: [setAudioRefs] queues the insertion of the new element, and
    line 226 still reads the map the handler was rendered with. *)

Definition handlePlayPause (protocolType : string) (w : World) : World :=
  let s := ui w in
  let audioFile := getAudioFile protocolType (id (selectedUser s)) in
  if decide (audioFile = "") then w
  else
    let w1 :=
      match audioRefs s !! protocolType with
      | None =>
          let audio := List.length (elements w) in
          with_ui (setAudioRefs (λ prev, <[protocolType := audio]> prev))
            (with_elements (λ els, (els ++ [new_Audio audioFile protocolType])%list) w)
      | Some _ => w
      end in
    match audioRefs s !! protocolType with
    | None => w1
    | Some audio =>
        if decide (playingAudio s = Some protocolType) then
          with_ui (setPlayingAudio None) (with_elements (el_pause audio) w1)
        else
          with_ui (setPlayingAudio (Some protocolType))
            (with_elements (λ els, el_play audio (pause_others (audioRefs s) audio els)) w1)
    end.

(** ** [handleSeek] (lines 269-285) *)

Record MouseEvent := {
  clientX : Qc;
  rect_left : Qc;
  rect_width : Qc
}.

(** Lines 274-277: the clicked fraction of the progress bar.  For a bar of
    width 0 the division gives [Infinity] or [NaN], no rational: [None]. *)
Definition percentage_of (event : MouseEvent) : option Qc :=
  let clickX := (clientX event - rect_left event)%Qc in
  if decide (rect_width event = 0%Qc) then None
  else Some (clickX / rect_width event)%Qc.

Definition handleSeek (protocolType : string) (event : MouseEvent) (w : World) : World :=
  match audioRefs (ui w) !! protocolType with
  | None => w
  | Some audio =>
      match elements w !! audio with
      | None => w
      | Some el =>
          match duration_truthy el with
          | None => w
          | Some d =>
              match percentage_of event with
              | None =>
                  (* [newTime] is not finite: the assignment of line 280
                     throws and the catch block of line 282 only logs *)
                  w
              | Some percentage =>
                  let newTime := (percentage * d)%Qc in
                  with_ui (setAudioProgress
                             (λ prev, <[protocolType := (percentage * hundred)%Qc]> prev))
                    (with_elements (alter (with_currentTime newTime) audio) w)
              end
          end
      end
  end.

(** ** The loader (lines 155-188)

    A promise settles fulfilled or rejected.  [promise_all] is
    [Promise.all]: the results are stored by the index of their promise,
    whatever the order in which the promises settle, and the first rejection
    rejects the whole. *)

Inductive Settled (A : Type) : Type :=
  | Fulfilled (v : A)
  | Rejected.
Arguments Fulfilled {A} v.
Arguments Rejected {A}.

Inductive AllState (A : Type) : Type :=
  | AllPending (slots : list (option A))
  | AllFulfilled (vs : list A)
  | AllRejected.
Arguments AllPending {A} slots.
Arguments AllFulfilled {A} vs.
Arguments AllRejected {A}.

Fixpoint all_values {A} (slots : list (option A)) : option (list A) :=
  match slots with
  | [] => Some []
  | Some v :: rest => cons v <$> all_values rest
  | None :: _ => None
  end.

Definition promise_all_settle {A} (i : nat) (r : Settled A) (st : AllState A) : AllState A :=
  match st with
  | AllPending slots =>
      match r with
      | Rejected => AllRejected
      | Fulfilled v =>
          let slots' := <[i := Some v]> slots in
          match all_values slots' with
          | Some vs => AllFulfilled vs
          | None => AllPending slots'
          end
      end
  | _ => st
  end.

(** [order] is the order in which the promises of [ps] settle. *)
Definition promise_all {A} (ps : list (Settled A)) (order : list nat) : AllState A :=
  foldl (λ st i, match ps !! i with
                 | Some r => promise_all_settle i r st
                 | None => st
                 end)
        (AllPending (replicate (List.length ps) None)) order.

Record Response := {
  ok : bool;
  json : Settled Protocol
}.

(** The data source: what [fetch] of a URL settles to. *)
Definition Server : Type := string → Settled Response.

Definition load_error : string := "Failed to load protocol data. Please refresh the page.".

(** What [loadProtocols] does before its first [await]. *)
Definition loadProtocols_begin (s : State) : State := setError None (setLoading true s).

Inductive LoadResult : Type :=
  | LoadPending
  | LoadThrown
  | LoadDone (ps : list Protocol).

(** The body of the [try] block for user [userId]; [order1] and [order2] are
    the orders in which the three fetches and the three [json()] promises
    settle. *)
Definition loadProtocols_try (server : Server) (userId : string)
    (order1 order2 : list nat) : LoadResult :=
  match promise_all [ server ("/data/" +:+ userId +:+ "_supplements.json");
                      server ("/data/" +:+ userId +:+ "_nutrition.json");
                      server ("/data/" +:+ userId +:+ "_exercise.json") ] order1 with
  | AllPending _ => LoadPending
  | AllRejected => LoadThrown
  | AllFulfilled [supplementsRes; nutritionRes; exerciseRes] =>
      if negb (ok supplementsRes) || negb (ok nutritionRes) || negb (ok exerciseRes)
      then LoadThrown
      else
        match promise_all [json supplementsRes; json nutritionRes; json exerciseRes] order2 with
        | AllPending _ => LoadPending
        | AllRejected => LoadThrown
        | AllFulfilled [supplements; nutrition; exercise] =>
            LoadDone [supplements; nutrition; exercise]
        | AllFulfilled _ => LoadThrown
        end
  | AllFulfilled _ => LoadThrown
  end.

(** The state updates of [loadProtocols] once it has run to its end:
    [setProtocols] or the [catch] block, then the [finally] block. *)
Definition loadProtocols_end (r : LoadResult) (s : State) : State :=
  match r with
  | LoadPending => s
  | LoadDone ps => setLoading false (setProtocols ps s)
  | LoadThrown => setLoading false (setError (Some load_error) s)
  end.

(** What the list view renders (line 465):
    [!loading && !error && protocols.map(...)], and nothing of the list in
    the detail view (line 294). *)
Definition error_truthy (s : State) : bool :=
  match error s with
  | Some msg => negb (String.eqb msg "")
  | None => false
  end.

Definition detail_view (s : State) : bool :=
  match selectedIntervention s, selectedProtocol s with
  | Some _, Some _ => true
  | _, _ => false
  end.

Definition rendered_protocols (s : State) : list Protocol :=
  if detail_view s then []
  else if negb (loading s) && negb (error_truthy s) then protocols s
  else [].

(** ** The user selector's [onClick] (lines 410-418) *)

Definition select_user_onClick (user : User) (s : State) : State :=
  setAudioDuration (λ _, ∅)
    (setAudioProgress (λ _, ∅)
      (setAudioRefs (λ _, ∅)
        (setPlayingAudio None
          (setShowUserSelector false
            (setSelectedUser user s))))).

(** ** Events

    The component is driven by clicks, by the events of the audio elements it
    has created and by the settling of the loads it has started.  Each
    constructor names the line of the source that receives it. *)

Inductive Event : Type :=
  | ClickPlayPause (protocolType : string)                  (* line 480 *)
  | ClickSeek (protocolType : string) (event : MouseEvent)  (* line 496 *)
  | ClickUser (i : nat)                                     (* line 410, [users[i]] *)
  | ClickUsersButton                                        (* line 391 *)
  | ClickIntervention (p i : nat)                           (* line 527 *)
  | ClickBack                                               (* line 303 *)
  | MediaEnded (audio : nat)                                (* line 199 *)
  | MediaPause (audio : nat)                                (* line 204 *)
  | MediaLoadedMetadata (audio : nat) (d : Qc)              (* line 206 *)
  | MediaTimeUpdate (audio : nat) (t : Qc)                  (* line 210 *)
  | MediaError (audio : nat)                                (* line 218 *)
  | MediaPlayRejected (audio : nat)                         (* line 257 *)
  | LoadSettles (i : nat) (order1 order2 : list nat).       (* lines 161-184 *)

(** A card of the list view carries the play button and the progress bar of
    its protocol type. *)
Definition card_rendered (protocolType : string) (s : State) : bool :=
  existsb (λ p, String.eqb (protocol_type p) protocolType) (rendered_protocols s).

Section Step.
Variable server : Server.

(** A media event runs the listeners of the element it is fired at.  The
    media engine may move the playback position, report the duration and
    pause an element (at the end of the playback); it never resumes one:
    only [play()] does. *)
Definition media (audio : nat) (w : World)
    (k : HTMLAudioElement → World) : option World :=
  match elements w !! audio with
  | Some el => Some (k el)
  | None => None
  end.

Definition step (e : Event) (w : World) : option World :=
  let s := ui w in
  match e with
  | ClickPlayPause protocolType =>
      if card_rendered protocolType s then Some (handlePlayPause protocolType w) else None
  | ClickSeek protocolType event =>
      if card_rendered protocolType s then Some (handleSeek protocolType event w) else None
  | ClickUser i =>
      if negb (detail_view s) && showUserSelector s then
        match users !! i with
        | Some user =>
            let w' := with_ui (select_user_onClick user) w in
            (* the effect of line 155 runs again when [selectedUser] changed *)
            if decide (user = selectedUser s) then Some w'
            else Some (with_inflight (λ l, (l ++ [id user])%list)
                         (with_ui loadProtocols_begin w'))
        | None => None
        end
      else None
  | ClickUsersButton =>
      if detail_view s then None
      else Some (with_ui (setShowUserSelector (negb (showUserSelector s))) w)
  | ClickIntervention p i =>
      match rendered_protocols s !! p with
      | Some protocol =>
          match interventions protocol !! i with
          | Some intervention =>
              Some (with_ui (λ s, setSelectedProtocol (Some protocol)
                                    (setSelectedIntervention (Some intervention) s)) w)
          | None => None
          end
      | None => None
      end
  | ClickBack =>
      if detail_view s then Some (with_ui (setSelectedIntervention None) w) else None
  | MediaEnded audio =>
      media audio w (λ el,
        with_ui (λ s, on_ended (listener_key el) (on_pause s))
          (with_elements (el_pause audio) w))
  | MediaPause audio =>
      media audio w (λ el, with_ui on_pause w)
  | MediaLoadedMetadata audio d =>
      media audio w (λ el,
        let el' := with_duration (Some d) el in
        with_ui (on_loadedmetadata (listener_key el) el')
          (with_elements (λ els, <[audio := el']> els) w))
  | MediaTimeUpdate audio t =>
      media audio w (λ el,
        let el' := with_currentTime t el in
        with_ui (on_timeupdate (listener_key el) el')
          (with_elements (λ els, <[audio := el']> els) w))
  | MediaError audio =>
      media audio w (λ el, with_ui on_error w)
  | MediaPlayRejected audio =>
      media audio w (λ el, with_ui on_play_rejected w)
  | LoadSettles i order1 order2 =>
      match inflight w !! i with
      | Some userId =>
          match loadProtocols_try server userId order1 order2 with
          | LoadPending => None
          | r => Some (with_inflight (delete i) (with_ui (loadProtocols_end r) w))
          end
      | None => None
      end
  end.

Fixpoint run (trace : list Event) (w : World) : option World :=
  match trace with
  | [] => Some w
  | e :: rest =>
      match step e w with
      | Some w' => run rest w'
      | None => None
      end
  end.

(** The component after its first render: the initial values of the
    [useState] calls, and the first load started by the effect. *)
Definition init_state : State :=
  {| selectedUser := default_user; selectedIntervention := None;
     selectedProtocol := None; protocols := []; loading := true;
     error := None; playingAudio := None; audioRefs := ∅;
     audioProgress := ∅; audioDuration := ∅; showUserSelector := false |}.

Definition init_world : World :=
  {| ui := loadProtocols_begin init_state; elements := [];
     inflight := [id (selectedUser init_state)] |}.

Inductive reachable : World → Prop :=
  | reachable_init : reachable init_world
  | reachable_step e w w' : reachable w → step e w = Some w' → reachable w'.
End Step.

(** ** The playback state of a category *)

(** The playing flag of a category, as the play button shows it (line 483). *)
Definition playing (s : State) (protocolType : string) : Prop :=
  playingAudio s = Some protocolType.

(** The element registered for a category is not paused. *)
Definition sounding (w : World) (protocolType : string) : Prop :=
  ∃ audio el, audioRefs (ui w) !! protocolType = Some audio
              ∧ elements w !! audio = Some el ∧ paused el = false.

Definition single_active (w : World) : Prop :=
  (∀ c1 c2, playing (ui w) c1 → playing (ui w) c2 → c1 = c2)
  ∧ (∀ c1 c2, sounding w c1 → sounding w c2 → c1 = c2).

(** The element behind a category's playback state and its usable duration. *)
Definition element_of (w : World) (protocolType : string) : option HTMLAudioElement :=
  audioRefs (ui w) !! protocolType ≫= λ audio, elements w !! audio.

Definition known_duration (w : World) (protocolType : string) : option Qc :=
  element_of w protocolType ≫= duration_truthy.

(** The invariant of the controller that makes [single_active] inductive:
    every registered handle is allocated, no element is registered under two
    categories, and at most one registered element is not paused. *)
Record controller_inv (w : World) : Prop := {
  inv_alloc : ∀ c a, audioRefs (ui w) !! c = Some a → a < List.length (elements w);
  inv_inj : ∀ c1 c2 a,
    audioRefs (ui w) !! c1 = Some a → audioRefs (ui w) !! c2 = Some a → c1 = c2;
  inv_one : ∀ c1 c2, sounding w c1 → sounding w c2 → c1 = c2
}.

(** [els'] has the elements of [els], none of them resumed. *)
Definition quieter (els els' : list HTMLAudioElement) : Prop :=
  List.length els' = List.length els
  ∧ ∀ a el', els' !! a = Some el' →
      ∃ el, els !! a = Some el ∧ (paused el' = false → paused el = false).

(** ** Sample data for the examples *)

Definition sample_doc (userId type : string) : Protocol :=
  {| protocol_type := type; title := userId +:+ " " +:+ type;
     interventions := []; total_interventions := 0 |}.

Definition sample_files : list (string * Protocol) :=
  u ← users; t ← ["supplements"; "nutrition"; "exercise"];
  [("/data/" +:+ id u +:+ "_" +:+ t +:+ ".json", sample_doc (id u) t)].

Definition not_found : Settled Response :=
  Fulfilled {| ok := false; json := Rejected |}.

(** Every file of every user of the roster is served. *)
Definition sample_server : Server := λ url,
  match (list_to_map sample_files : gmap string Protocol) !! url with
  | Some d => Fulfilled {| ok := true; json := Fulfilled d |}
  | None => not_found
  end.

(** The same, with the nutrition file of "nik" missing. *)
Definition broken_server : Server := λ url,
  if decide (url = "/data/nik_nutrition.json") then not_found else sample_server url.

(** The first load settles, then two clicks on the play button of the
    exercise card. *)
Definition loaded_trace : list Event := [LoadSettles 0 [2; 0; 1] [1; 2; 0]].

Definition two_clicks_trace : list Event :=
  loaded_trace ++ [ClickPlayPause "exercise"; ClickPlayPause "exercise"].

Definition after (trace : list Event) : World :=
  default init_world (run sample_server trace init_world).

(** A fetch that did not succeed: no response, or a response that is not ok. *)
Definition fetch_failed (r : Settled Response) : bool :=
  match r with
  | Rejected => true
  | Fulfilled res => negb (ok res)
  end.

(** The exercise narration is playing and the user switches to "tyler". *)
Definition switch_trace : list Event :=
  two_clicks_trace ++ [ClickUsersButton; ClickUser 1].

(** ... then, once the protocols of "tyler" are there, two clicks on the play
    button of the nutrition card. *)
Definition switch_and_play_trace : list Event :=
  switch_trace ++ [LoadSettles 0 [0; 1; 2] [0; 1; 2];
                   ClickPlayPause "nutrition"; ClickPlayPause "nutrition"].

(** The user switches to "tyler" while the load of "nik" is in flight; the
    load of "tyler" settles first, the load of "nik" after it. *)
Definition stale_trace : list Event :=
  [ClickUsersButton; ClickUser 1;
   LoadSettles 1 [0; 1; 2] [0; 1; 2]; LoadSettles 0 [0; 1; 2] [0; 1; 2]].

(** The exercise narration is playing, its metadata reports 200 seconds and
    the user clicks the middle of the progress bar. *)
Definition seek_trace : list Event :=
  two_clicks_trace ++
  [MediaLoadedMetadata 0 (Qc_of_Z 200);
   ClickSeek "exercise"
     {| clientX := Qc_of_Z 60; rect_left := Qc_of_Z 10; rect_width := Qc_of_Z 100 |}].

(** The state before that click, the click, and a click on a bar of width 0. *)
Definition metadata_world : World :=
  after (two_clicks_trace ++ [MediaLoadedMetadata 0 (Qc_of_Z 200)]).

Definition half_click : MouseEvent :=
  {| clientX := Qc_of_Z 60; rect_left := Qc_of_Z 10; rect_width := Qc_of_Z 100 |}.

Definition flat_click : MouseEvent :=
  {| clientX := Qc_of_Z 60; rect_left := Qc_of_Z 10; rect_width := 0%Qc |}.

(** The exercise narration is playing; the user opens the selector, clicks
    the user already selected and then, twice, the play button of the
    nutrition card. *)
Definition reselect_trace : list Event :=
  two_clicks_trace ++
  [ClickUsersButton; ClickUser 0; ClickPlayPause "nutrition"; ClickPlayPause "nutrition"].


(** An element half way through a track of 2 seconds. *)
Definition halfway_element : HTMLAudioElement :=
  {| src := "/data/nik_exercise.mp3"; paused := false;
     currentTime := Qc_of_Z 1; duration := Some (Qc_of_Z 2);
     listener_key := "exercise" |}.

(** ** Invariants of the registered elements *)

(** The element registered for a category was created for that category,
    from the audio file of the selected user. *)
Definition registered_sources (w : World) : Prop :=
  ∀ c a el, audioRefs (ui w) !! c = Some a → elements w !! a = Some el →
    listener_key el = c
    ∧ src el = getAudioFile c (id (selectedUser (ui w)))
    ∧ src el ≠ "".

(** The elements of [els'] are those of [els] or new ones made by [mk]; an
    old element keeps its source and the category of its listeners. *)
Definition same_source (els els' : list HTMLAudioElement) : Prop :=
  ∀ a el', els' !! a = Some el' →
    ∃ el, els !! a = Some el ∧ src el' = src el ∧ listener_key el' = listener_key el.


(** ** [formatTime] (lines 287-292)

    [None] is [NaN].  [Math.floor] is [Qfloor]; [x % y] of JavaScript takes
    the sign of [x]: it is [x - y * trunc (x / y)].  An integer is printed in
    decimal, with a minus sign when negative. *)

Definition Math_floor (x : Qc) : Z := Qfloor x.

Definition js_trunc (x : Qc) : Z :=
  if decide (0 ≤ x)%Qc then Qfloor x else Qceiling x.

Definition js_rem (x y : Qc) : Qc := (x - y * Qc_of_Z (js_trunc (x / y)))%Qc.

Definition sixty : Qc := Qc_of_Z 60.

Definition padStart (targetLength : nat) (padChar : Ascii.ascii) (s : string) : string :=
  foldr String s (replicate (targetLength - String.length s) padChar).

Definition formatTime (seconds : option Qc) : string :=
  match seconds with
  | None => "0:00"
  | Some x =>
      if decide (x = 0%Qc) then "0:00"
      else
        let mins := Math_floor (x / sixty)%Qc in
        let secs := Math_floor (js_rem x sixty) in
        pretty mins +:+ ":" +:+ padStart 2 "0"%char (pretty secs)
  end.

(** ** What a card shows (lines 102-113, 483-516) *)

Definition getAudioButtonText (type : string) : string :=
  if decide (type = "exercise") then "Explain my exercise plan"
  else if decide (type = "nutrition") then "Explain my nutrition plan"
  else if decide (type = "supplements") then "Explain my supplements"
  else "Play audio guide".

(** Line 488. *)
Definition button_label (s : State) (protocolType : string) : string :=
  if decide (playingAudio s = Some protocolType) then "Pause"
  else getAudioButtonText protocolType.

(** Line 500: [audioProgress[type] || 0]. *)
Definition bar_width (s : State) (protocolType : string) : Qc :=
  match audioProgress s !! protocolType with
  | Some p => if decide (p = 0%Qc) then 0%Qc else p
  | None => 0%Qc
  end.

(** Lines 507-510. *)
Definition elapsed_label (w : World) (protocolType : string) : string :=
  match element_of w protocolType with
  | Some audio => formatTime (Some (currentTime audio))
  | None => "0:00"
  end.

(** Lines 513-516. *)
Definition duration_label (s : State) (protocolType : string) : string :=
  match audioDuration s !! protocolType with
  | Some (Some d) => if decide (d = 0%Qc) then "0:00" else formatTime (Some d)
  | _ => "0:00"
  end.

(** ** The detail fields of an intervention (lines 315 and 535)

    [details.find((d) => d.Field === field)?.Details] *)

Definition find_detail (field : string) (details : list (string * string)) : option string :=
  (λ found, found.2.2) <$> list_find (λ d, d.1 = field) details.

Definition description_of (intervention : Intervention) : option string :=
  find_detail "Description" (details intervention).

Definition benefit_summary_of (intervention : Intervention) : option string :=
  find_detail "Benefit Summary" (details intervention).

(** The loading indicator is on only while a load is in flight. *)
Definition loading_has_load (w : World) : Prop :=
  loading (ui w) = true → inflight w ≠ [].

(** An intervention with the two detail fields the views look up, and a
    world whose list shows a protocol with it. *)
Definition sample_intervention : Intervention :=
  {| name := "Creatine"; number := 1; action := "START";
     frequency := Some "daily"; time := None;
     scientific_rationale := "Supports strength";
     details := [("Dose", "5 g"); ("Description", "X"); ("Benefit Summary", "Y");
                 ("Description", "Z")];
     parameters := []; target_biomarkers := []; ranking := 1;
     personalized_note := None; lifestyle_context := None |}.

Definition detailed_world : World :=
  with_ui (setProtocols
             [{| protocol_type := "supplements"; title := "Supplements";
                 interventions := [sample_intervention]; total_interventions := 1 |}])
    (after loaded_trace).

(** * Theorems *)

(** ** Single active track *)

Lemma reachable_run server trace w w' :
  reachable server w → run server trace w = Some w' → reachable server w'.
Proof.
  revert w. induction trace as [|e rest IH]; intros w Hw Hrun; simpl in Hrun.
  - by simplify_eq.
  - destruct (step server e w) as [w1|] eqn:Hs; [|done].
    eapply IH; [|exact Hrun]. by eapply reachable_step.
Qed.

Lemma quieter_refl els : quieter els els.
Proof. split; [done|]. intros a el' H. by exists el'. Qed.

Lemma quieter_trans els1 els2 els3 :
  quieter els1 els2 → quieter els2 els3 → quieter els1 els3.
Proof.
  intros [Hl1 H1] [Hl2 H2]. split; [congruence|].
  intros a el3 Hel3. destruct (H2 _ _ Hel3) as (el2 & Hel2 & Hp2).
  destruct (H1 _ _ Hel2) as (el1 & Hel1 & Hp1). exists el1. auto.
Qed.

Lemma quieter_alter f a els :
  (∀ el, paused (f el) = false → paused el = false) →
  quieter els (alter f a els).
Proof.
  intros Hf. split; [apply length_alter|].
  intros b el' Hb. destruct (decide (a = b)) as [->|Hne].
  - rewrite list_lookup_alter_eq in Hb.
    destruct (els !! b) as [el|]; simplify_eq/=. exists el. auto.
  - rewrite list_lookup_alter_ne in Hb by done. by exists el'.
Qed.

Lemma quieter_insert a el el0 els :
  els !! a = Some el0 → (paused el = false → paused el0 = false) →
  quieter els (<[a := el]> els).
Proof.
  intros Ha Hp. split; [apply length_insert|].
  intros b el' H. destruct (decide (a = b)) as [->|Hne].
  - rewrite list_lookup_insert_eq in H by (by eapply lookup_lt_Some).
    simplify_eq. by exists el0.
  - rewrite list_lookup_insert_ne in H by done. by exists el'.
Qed.

Lemma quieter_el_pause a els : quieter els (el_pause a els).
Proof. apply quieter_alter. by intros el. Qed.

Lemma pause_others_quieter refs audio els :
  quieter els (pause_others refs audio els).
Proof.
  unfold pause_others. induction ((map_to_list refs).*2) as [|a l IH]; simpl.
  - apply quieter_refl.
  - case_decide; [|done]. eapply quieter_trans; [exact IH|apply quieter_el_pause].
Qed.

Lemma pause_others_paused refs audio els c a el :
  refs !! c = Some a → a ≠ audio →
  pause_others refs audio els !! a = Some el → paused el = true.
Proof.
  intros Hc Hne. unfold pause_others.
  assert (a ∈ (map_to_list refs).*2) as Hin.
  { apply list_elem_of_fmap. exists (c, a). split; [done|].
    by apply elem_of_map_to_list. }
  revert el. induction Hin as [a l|a b l Hin IH]; intros el; simpl.
  - rewrite decide_True by done. unfold el_pause.
    rewrite list_lookup_alter_eq. intros H.
    destruct (_ !! a); by simplify_eq/=.
  - case_decide; [|by apply IH]. unfold el_pause.
    destruct (decide (b = a)) as [->|Hba].
    + rewrite list_lookup_alter_eq. intros Hel. destruct (_ !! a); by simplify_eq/=.
    + rewrite list_lookup_alter_ne by done. by apply IH.
Qed.

Lemma controller_inv_quieter w w' :
  controller_inv w →
  audioRefs (ui w') = audioRefs (ui w) →
  quieter (elements w) (elements w') →
  controller_inv w'.
Proof.
  intros [Ha Hi Ho] Hrefs [Hlen Hq]. split.
  - intros c a. rewrite Hrefs, Hlen. apply Ha.
  - intros c1 c2 a. rewrite Hrefs. apply Hi.
  - intros c1 c2 (a1 & e1 & Hr1 & He1 & Hp1) (a2 & e2 & Hr2 & He2 & Hp2).
    rewrite Hrefs in Hr1, Hr2.
    destruct (Hq _ _ He1) as (e1' & ? & ?), (Hq _ _ He2) as (e2' & ? & ?).
    apply Ho; [exists a1, e1'|exists a2, e2']; auto.
Qed.

Lemma controller_inv_init : controller_inv init_world.
Proof.
  split; simpl.
  - intros c a H. by rewrite lookup_empty in H.
  - intros c1 c2 a H. by rewrite lookup_empty in H.
  - intros c1 c2 (a & el & H & _). simpl in H. by rewrite lookup_empty in H.
Qed.

Lemma controller_inv_no_refs w :
  audioRefs (ui w) = ∅ → controller_inv w.
Proof.
  intros H. split.
  - intros c a. by rewrite H, lookup_empty.
  - intros c1 c2 a. by rewrite H, lookup_empty.
  - intros c1 c2 (a & el & Hr & _). by rewrite H, lookup_empty in Hr.
Qed.

Lemma handlePlayPause_inv protocolType w :
  controller_inv w → controller_inv (handlePlayPause protocolType w).
Proof.
  intros Hinv. unfold handlePlayPause.
  case_decide as Hfile; [done|].
  destruct (audioRefs (ui w) !! protocolType) as [audio|] eqn:Href.
  - case_decide as Hplaying.
    + eapply controller_inv_quieter; [exact Hinv|done|]. simpl. apply quieter_el_pause.
    + destruct Hinv as [Ha Hi Ho]. split; simpl.
      * intros c a H. unfold el_play. rewrite length_alter.
        destruct (pause_others_quieter (audioRefs (ui w)) audio (elements w)) as [-> _].
        by eapply Ha.
      * apply Hi.
      * assert (∀ c, sounding
          (with_ui (setPlayingAudio (Some protocolType))
             (with_elements
                (λ els, el_play audio (pause_others (audioRefs (ui w)) audio els)) w)) c
          → c = protocolType) as Honly.
        { intros c (a & el & Hr & He & Hp). simpl in Hr, He.
          destruct (decide (a = audio)) as [->|Hne]; [by eapply Hi|].
          unfold el_play in He. rewrite list_lookup_alter_ne in He by done.
          by rewrite (pause_others_paused _ _ _ _ _ _ Hr Hne He) in Hp. }
        intros c1 c2 H1 H2. by rewrite (Honly _ H1), (Honly _ H2).
  - destruct Hinv as [Ha Hi Ho]. split; simpl.
    + intros c a. rewrite length_app. simpl.
      destruct (decide (protocolType = c)) as [->|Hne].
      * rewrite lookup_insert_eq. intros; simplify_eq. lia.
      * rewrite lookup_insert_ne by done. intros H. apply Ha in H. lia.
    + intros c1 c2 a.
      destruct (decide (protocolType = c1)) as [->|Hne1];
        destruct (decide (c1 = c2)) as [|Hne2]; try done.
      * rewrite lookup_insert_eq, lookup_insert_ne by done.
        intros ? H; simplify_eq. apply Ha in H. lia.
      * destruct (decide (protocolType = c2)) as [->|Hne3].
        -- rewrite lookup_insert_ne, lookup_insert_eq by done.
           intros H ?; simplify_eq. apply Ha in H. lia.
        -- rewrite !lookup_insert_ne by done. apply Hi.
    + assert (∀ c, sounding
          (with_ui (setAudioRefs (λ prev, <[protocolType := List.length (elements w)]> prev))
             (with_elements
                (λ els, (els ++ [new_Audio
                   (getAudioFile protocolType (id (selectedUser (ui w)))) protocolType])%list) w)) c
          → sounding w c) as Hold.
      { intros c (a & el & Hr & He & Hp). simpl in Hr, He.
        destruct (decide (protocolType = c)) as [->|Hne].
        - rewrite lookup_insert_eq in Hr. simplify_eq.
          rewrite list_lookup_middle in He by done. by simplify_eq.
        - rewrite lookup_insert_ne in Hr by done.
          rewrite lookup_app_l in He by (by eapply Ha). by exists a, el. }
      intros c1 c2 H1 H2. apply Ho; by apply Hold.
Qed.

Lemma handleSeek_inv protocolType event w :
  controller_inv w → controller_inv (handleSeek protocolType event w).
Proof.
  intros Hinv. unfold handleSeek.
  destruct (audioRefs (ui w) !! protocolType) as [audio|]; [|done].
  destruct (elements w !! audio) as [el|]; [|done].
  destruct (duration_truthy el) as [d|]; [|done].
  destruct (percentage_of event) as [percentage|]; [|done].
  eapply controller_inv_quieter; [exact Hinv|done|]. simpl.
  apply quieter_alter. by intros [].
Qed.

Lemma on_timeupdate_audioRefs c el s :
  audioRefs (on_timeupdate c el s) = audioRefs s.
Proof. unfold on_timeupdate. by destruct (duration_truthy el). Qed.

Lemma loadProtocols_end_audioRefs r s :
  audioRefs (loadProtocols_end r s) = audioRefs s.
Proof. by destruct r. Qed.

Lemma step_inv server e w w' :
  controller_inv w → step server e w = Some w' → controller_inv w'.
Proof.
  intros Hinv Hstep. destruct e; simpl in Hstep; unfold media in Hstep;
    repeat (case_match; simplify_eq/=; try done);
    try (by apply handlePlayPause_inv);
    try (by apply handleSeek_inv);
    try (by apply controller_inv_no_refs);
    try (eapply controller_inv_quieter; [exact Hinv|done|]; simpl;
         first [ apply quieter_refl | apply quieter_el_pause
               | eapply quieter_insert; [eassumption|done] ]).
  - eapply controller_inv_quieter; [exact Hinv|apply on_timeupdate_audioRefs|]; simpl.
    eapply quieter_insert; [eassumption|done].
Qed.

Lemma reachable_inv server w : reachable server w → controller_inv w.
Proof.
  induction 1 as [|e w w' _ IH Hstep]; [apply controller_inv_init|].
  by eapply step_inv.
Qed.

(** Between the elements that are registered in [audioRefs]: in every
    reachable state at most one of them is not paused, and at most one
    category has its flag set.  The elements a click on a user has dropped
    from [audioRefs] are not counted. *)
Lemma single_active_among_registered server w :
  reachable server w →
  single_active w ∧ ∀ e w', step server e w = Some w' → single_active w'.
Proof.
  intros Hreach.
  assert (∀ w0, controller_inv w0 → single_active w0) as Hsingle.
  { intros w0 [_ _ Ho]. split; [|exact Ho].
    unfold playing. intros c1 c2 H1 H2. congruence. }
  split.
  - by apply Hsingle, (reachable_inv server).
  - intros e w' Hstep. eapply Hsingle, step_inv; [|exact Hstep].
    by apply (reachable_inv server).
Qed.

(** C1 (what the code does): the exercise narration of "nik" is playing; the
    user clicks "nik" in the selector, which drops the element from
    [audioRefs] without pausing it, and starts the nutrition narration.  The
    two elements, of two categories, are then not paused at the same time,
    while the only flag set is that of "nutrition". *)
Theorem two_narrations_after_user_click :
  let w := after reselect_trace in
  run sample_server reselect_trace init_world = Some w
  ∧ playingAudio (ui w) = Some "nutrition"
  ∧ listener_key <$> elements w = ["exercise"; "nutrition"]
  ∧ src <$> elements w = ["/data/nik_exercise.mp3"; "/data/nik_nutrition.mp3"]
  ∧ paused <$> elements w = [false; false]
  ∧ audioRefs (ui w) !! "exercise" = None
  ∧ audioRefs (ui w) !! "nutrition" = Some 1.
Proof. by vm_compute. Qed.

(** ** Toggling *)

(** The first call for a category creates and registers its element and
    returns at line 229: nothing is played and the flag is not set. *)
Lemma handlePlayPause_unregistered protocolType w :
  audioRefs (ui w) !! protocolType = None →
  playingAudio (ui (handlePlayPause protocolType w)) = playingAudio (ui w)
  ∧ ∀ a el, elements (handlePlayPause protocolType w) !! a = Some el →
            paused el = false → elements w !! a = Some el.
Proof.
  intros Href. unfold handlePlayPause. case_decide; [done|].
  rewrite Href. simpl. split; [done|].
  intros a el Hel Hp. destruct (decide (a < List.length (elements w))) as [Hlt|Hge].
  - by rewrite lookup_app_l in Hel.
  - rewrite lookup_app_r in Hel by lia.
    destruct (a - List.length (elements w)) as [|n]; simpl in Hel; [|done].
    by simplify_eq.
Qed.




(** C2 (what the code does): with the protocols of "nik" loaded, no element
    created yet and no flag set, the first call of [handlePlayPause] for
    "exercise" leaves the playing flag unset and only registers a paused
    element; the second call sets the flag and plays the element. *)
Theorem toggle_twice_from_fresh :
  let w0 := after loaded_trace in
  let w1 := handlePlayPause "exercise" w0 in
  let w2 := handlePlayPause "exercise" w1 in
  (audioRefs (ui w0) !! "exercise" = None ∧ playingAudio (ui w0) = None)
  ∧ (playingAudio (ui w1) = None
     ∧ audioRefs (ui w1) !! "exercise" = Some 0
     ∧ paused <$> elements w1 !! 0 = Some true)
  ∧ (playingAudio (ui w2) = Some "exercise"
     ∧ paused <$> elements w2 !! 0 = Some false)
  ∧ run sample_server two_clicks_trace init_world = Some w2.
Proof. by vm_compute. Qed.

(** ** End of playback *)

(** The ended event of an element: the playback has stopped, and the pause
    and ended listeners of the element run with the category it was created
    for. *)
Lemma step_MediaEnded server audio w el :
  elements w !! audio = Some el →
  ∃ w', step server (MediaEnded audio) w = Some w'
        ∧ ui w' = on_ended (listener_key el) (on_pause (ui w))
        ∧ elements w' !! audio = Some (with_paused true el).
Proof.
  intros Hel. simpl. unfold media. rewrite Hel. eexists. split; [done|].
  split; [done|]. simpl. unfold el_pause. by rewrite list_lookup_alter_eq, Hel.
Qed.

(** C3: whatever the state, hence whatever the progress recorded before, the
    ended listener of category [c] leaves the progress of [c] at 0 and no
    playing flag set; a click on the play button never changes the recorded
    progress. *)
Theorem ended_resets_progress c s :
  audioProgress (on_ended c s) !! c = Some 0%Qc
  ∧ ¬ playing (on_ended c s) c
  ∧ playingAudio (on_ended c s) = None
  ∧ ∀ w, audioProgress (ui (handlePlayPause c w)) = audioProgress (ui w).
Proof.
  repeat split.
  - simpl. apply lookup_insert_eq.
  - unfold playing. by simpl.
  - intros w. unfold handlePlayPause.
    repeat (case_match; simpl; try done).
Qed.

(** ** Seeking *)

(** C4: [handleSeek] changes nothing when the category has no element with a
    usable duration (and nothing for a bar of width 0, where there is no
    fraction); otherwise, with [f] the clicked fraction of the bar and [d]
    the duration, it sets the position of the element to [f * d] and the
    recorded progress to [f * 100] in the same step, and leaves the paused
    attribute, the duration and the source of the element as they were. *)
Theorem handleSeek_spec c event w :
  (known_duration w c = None → handleSeek c event w = w)
  ∧ (rect_width event = 0%Qc → handleSeek c event w = w)
  ∧ (∀ d, known_duration w c = Some d → rect_width event ≠ 0%Qc →
       let f := ((clientX event - rect_left event) / rect_width event)%Qc in
       ∃ audio el el',
         audioRefs (ui w) !! c = Some audio
         ∧ elements w !! audio = Some el
         ∧ elements (handleSeek c event w) !! audio = Some el'
         ∧ currentTime el' = (f * d)%Qc
         ∧ paused el' = paused el ∧ duration el' = duration el ∧ src el' = src el
         ∧ audioProgress (ui (handleSeek c event w)) !! c = Some (f * hundred)%Qc).
Proof.
  unfold known_duration, element_of, handleSeek, percentage_of.
  destruct (audioRefs (ui w) !! c) as [audio|] eqn:Href; simpl; [|by split_and!].
  destruct (elements w !! audio) as [el|] eqn:Hel; simpl; [|by split_and!].
  destruct (duration_truthy el) as [d|] eqn:Hd; simpl; [|by split_and!].
  split_and!; [done| |].
  - intros ->. by rewrite decide_True.
  - intros d' ? Hwidth; simplify_eq. rewrite decide_False by done. simpl.
    exists audio, el, (with_currentTime
      ((clientX event - rect_left event) / rect_width event * d')%Qc el).
    split_and!; try done.
    + by rewrite list_lookup_alter_eq, Hel.
    + apply lookup_insert_eq.
Qed.

Lemma handleSeek_spec_witness :
  handleSeek "exercise" half_click (after two_clicks_trace) = after two_clicks_trace
  ∧ handleSeek "exercise" flat_click metadata_world = metadata_world
  ∧ ∃ el', elements (handleSeek "exercise" half_click metadata_world) !! 0 = Some el'
           ∧ currentTime el'
             = ((Qc_of_Z 60 - Qc_of_Z 10) / Qc_of_Z 100 * Qc_of_Z 200)%Qc
           ∧ audioProgress (ui (handleSeek "exercise" half_click metadata_world))
               !! "exercise"
             = Some ((Qc_of_Z 60 - Qc_of_Z 10) / Qc_of_Z 100 * hundred)%Qc.
Proof.
  destruct (handleSeek_spec "exercise" half_click (after two_clicks_trace))
    as (Hunknown & _ & _).
  destruct (handleSeek_spec "exercise" flat_click metadata_world) as (_ & Hflat & _).
  destruct (handleSeek_spec "exercise" half_click metadata_world) as (_ & _ & Hknown).
  split; [refine (Hunknown _); vm_compute; reflexivity|].
  split; [refine (Hflat _); reflexivity|].
  destruct (Hknown (Qc_of_Z 200)) as (audio & el & el' & Href & _ & Hel' & Ht & _ & _ & _ & Hp).
  - vm_compute. reflexivity.
  - done.
  - vm_compute in Href. injection Href as <-.
    exists el'. split; [exact Hel'|]. split; [exact Ht|exact Hp].
Defined.

Lemma Qc_eq_compute (x y : Qc) : Qeq_bool x y = true → x = y.
Proof. intros H. apply Qc_is_canon. by apply Qeq_bool_iff. Qed.

(** A click in the middle of the bar of a track of 200 seconds: the position
    is 100 seconds and the recorded progress 50, before any timeupdate. *)
Example handleSeek_half :
  let w := after seek_trace in
  run sample_server seek_trace init_world = Some w
  ∧ currentTime <$> elements w !! 0 = Some (Qc_of_Z 100)
  ∧ audioProgress (ui w) !! "exercise" = Some (Qc_of_Z 50)
  ∧ audioDuration (ui w) !! "exercise" = Some (Some (Qc_of_Z 200)).
Proof.
  split; [by vm_compute|]. split; [|split].
  - vm_compute. f_equal. apply Qc_eq_compute. by vm_compute.
  - vm_compute. f_equal. apply Qc_eq_compute. by vm_compute.
  - by vm_compute.
Qed.

(** ** Unknown categories *)

(** C10: for a category other than the three known ones [getAudioFile] is
    the empty string and [handlePlayPause] returns the world it was given:
    no element is created and no state changes. *)
Theorem handlePlayPause_unknown_category c userId w :
  c ≠ "exercise" → c ≠ "nutrition" → c ≠ "supplements" →
  getAudioFile c userId = "" ∧ handlePlayPause c w = w.
Proof.
  intros H1 H2 H3.
  assert (∀ u, getAudioFile c u = "") as Hfile.
  { intros u. unfold getAudioFile. by rewrite !decide_False by done. }
  split; [apply Hfile|].
  unfold handlePlayPause. by rewrite Hfile, decide_True.
Qed.

Lemma handlePlayPause_unknown_category_witness :
  getAudioFile "sleep" "nik" = ""
  ∧ handlePlayPause "sleep" (after two_clicks_trace) = after two_clicks_trace.
Proof.
  apply (handlePlayPause_unknown_category "sleep" "nik" (after two_clicks_trace));
    by vm_compute.
Defined.

(** ** The loader *)

Lemma three_orders (order : list nat) :
  order ≡ₚ [0; 1; 2] →
  order ∈ [[0; 1; 2]; [1; 0; 2]; [1; 2; 0]; [0; 2; 1]; [2; 0; 1]; [2; 1; 0]].
Proof. intros H. symmetry in H. by apply permutations_Permutation in H. Qed.

(** [Promise.all] of three promises, once the three have settled in any
    order: the values by position, or rejected if one of them is. *)
Lemma promise_all_three {A} (r1 r2 r3 : Settled A) (order : list nat) :
  order ≡ₚ [0; 1; 2] →
  promise_all [r1; r2; r3] order =
    match r1, r2, r3 with
    | Fulfilled a, Fulfilled b, Fulfilled c => AllFulfilled [a; b; c]
    | _, _, _ => AllRejected
    end.
Proof.
  intros H%three_orders.
  repeat (apply elem_of_cons in H as [->|H]); [..|by apply elem_of_nil in H];
    by destruct r1, r2, r3.
Qed.

(** C5: for every user id and every order in which the three fetches and the
    three [json()] promises settle, when the three fetches succeed with
    documents [D1] (supplements), [D2] (nutrition) and [D3] (exercise), the
    loader sets the protocol list to [[D1; D2; D3]]. *)
Theorem loadProtocols_fixed_order server userId order1 order2 D1 D2 D3 s :
  order1 ≡ₚ [0; 1; 2] →
  order2 ≡ₚ [0; 1; 2] →
  server ("/data/" +:+ userId +:+ "_supplements.json")
    = Fulfilled {| ok := true; json := Fulfilled D1 |} →
  server ("/data/" +:+ userId +:+ "_nutrition.json")
    = Fulfilled {| ok := true; json := Fulfilled D2 |} →
  server ("/data/" +:+ userId +:+ "_exercise.json")
    = Fulfilled {| ok := true; json := Fulfilled D3 |} →
  loadProtocols_try server userId order1 order2 = LoadDone [D1; D2; D3]
  ∧ protocols (loadProtocols_end (loadProtocols_try server userId order1 order2) s)
    = [D1; D2; D3].
Proof.
  intros Ho1 Ho2 H1 H2 H3.
  assert (loadProtocols_try server userId order1 order2 = LoadDone [D1; D2; D3]) as ->.
  { unfold loadProtocols_try. rewrite H1, H2, H3.
    rewrite (promise_all_three _ _ _ _ Ho1). simpl.
    by rewrite (promise_all_three _ _ _ _ Ho2). }
  done.
Qed.

Lemma loadProtocols_fixed_order_witness :
  protocols (loadProtocols_end
               (loadProtocols_try sample_server "katie" [2; 0; 1] [1; 2; 0]) init_state)
  = [sample_doc "katie" "supplements"; sample_doc "katie" "nutrition";
     sample_doc "katie" "exercise"].
Proof.
  apply (loadProtocols_fixed_order sample_server "katie" [2; 0; 1] [1; 2; 0]
           (sample_doc "katie" "supplements") (sample_doc "katie" "nutrition")
           (sample_doc "katie" "exercise") init_state).
  - apply permutations_Permutation. by vm_compute; set_solver.
  - apply permutations_Permutation. by vm_compute; set_solver.
  - by vm_compute.
  - by vm_compute.
  - by vm_compute.
Defined.

(** C6: for every user id and every order in which the fetches settle, if
    one of the three fetches fails (a response that is not ok, or no
    response) the load throws: the error message is set, the protocol list
    is not assigned and the list view renders no protocol. *)
Theorem loadProtocols_all_or_nothing server userId order1 order2 s :
  order1 ≡ₚ [0; 1; 2] →
  fetch_failed (server ("/data/" +:+ userId +:+ "_supplements.json"))
  || fetch_failed (server ("/data/" +:+ userId +:+ "_nutrition.json"))
  || fetch_failed (server ("/data/" +:+ userId +:+ "_exercise.json")) = true →
  let s' := loadProtocols_end (loadProtocols_try server userId order1 order2) s in
  loadProtocols_try server userId order1 order2 = LoadThrown
  ∧ error s' = Some load_error
  ∧ loading s' = false
  ∧ protocols s' = protocols s
  ∧ rendered_protocols s' = [].
Proof.
  intros Ho1 Hfail.
  assert (loadProtocols_try server userId order1 order2 = LoadThrown) as Hthrown.
  { unfold loadProtocols_try. rewrite (promise_all_three _ _ _ _ Ho1).
    destruct (server _) as [[[] ?]|], (server _) as [[[] ?]|], (server _) as [[[] ?]|];
      simpl in *; done. }
  simpl. rewrite Hthrown. repeat split.
  unfold rendered_protocols. simpl. by destruct (detail_view _).
Qed.

Lemma loadProtocols_all_or_nothing_witness :
  let s' := loadProtocols_end
              (loadProtocols_try broken_server "nik" [2; 0; 1] [0; 1; 2]) init_state in
  error s' = Some load_error ∧ rendered_protocols s' = [].
Proof.
  destruct (loadProtocols_all_or_nothing broken_server "nik" [2; 0; 1] [0; 1; 2] init_state)
    as (_ & He & _ & _ & Hr).
  - apply permutations_Permutation. by vm_compute; set_solver.
  - by vm_compute.
  - by split.
Defined.

(** ** Switching users *)

(** The click on a user of the selector only assigns React state: the store
    of elements is the one it found. *)
Lemma select_user_keeps_elements user w :
  elements (with_ui (select_user_onClick user) w) = elements w
  ∧ playingAudio (ui (with_ui (select_user_onClick user) w)) = None
  ∧ audioRefs (ui (with_ui (select_user_onClick user) w)) = ∅
  ∧ audioProgress (ui (with_ui (select_user_onClick user) w)) = ∅
  ∧ audioDuration (ui (with_ui (select_user_onClick user) w)) = ∅.
Proof. done. Qed.

(** C7 (what the code does): the exercise narration of "nik" is playing and
    the user switches to "tyler".  The flag, the registered
    elements, the progress and the durations are cleared and a load for
    "tyler" starts, but the element that was playing is not paused; when the
    nutrition narration of "tyler" is started later, both elements play. *)
Theorem user_switch_leaves_element_playing :
  let w := after two_clicks_trace in
  let w' := after switch_trace in
  let w'' := after switch_and_play_trace in
  (playing (ui w) "exercise" ∧ paused <$> elements w !! 0 = Some false)
  ∧ run sample_server switch_trace init_world = Some w'
  ∧ (playingAudio (ui w') = None ∧ audioRefs (ui w') = ∅
     ∧ audioProgress (ui w') = ∅ ∧ audioDuration (ui w') = ∅
     ∧ inflight w' = ["tyler"])
  ∧ paused <$> elements w' !! 0 = Some false
  ∧ run sample_server switch_and_play_trace init_world = Some w''
  ∧ paused <$> elements w'' = [false; false].
Proof. by vm_compute. Qed.

(** ** Late responses *)




(** ** Progress *)

Lemma Qc_fraction_bounds (t d : Qc) :
  d ≠ 0%Qc → (0 ≤ t)%Qc → (t ≤ d)%Qc →
  (0 ≤ t / d * hundred)%Qc ∧ (t / d * hundred ≤ hundred)%Qc.
Proof.
  intros Hd Ht Htd.
  assert (0 < d)%Qc as Hpos.
  { apply Qcle_lt_or_eq in Ht as [Ht| <-].
    - by eapply Qclt_le_trans.
    - by apply Qcle_lt_or_eq in Htd as [Htd|Htd]. }
  assert (0 ≤ hundred)%Qc as Hh by done.
  assert (t / d * d = t)%Qc as Hmul.
  { rewrite Qcmult_comm. by apply Qcmult_div_r. }
  assert (0 ≤ t / d)%Qc as H0.
  { apply Qcnot_lt_le. intros Hlt.
    apply (Qcmult_lt_compat_r _ _ d) in Hlt; [|done].
    rewrite Hmul, Qcmult_0_l in Hlt. by apply Qclt_not_le in Hlt. }
  assert (t / d ≤ 1)%Qc as H1.
  { apply Qcnot_lt_le. intros Hlt.
    apply (Qcmult_lt_compat_r _ _ d) in Hlt; [|done].
    rewrite Hmul, Qcmult_1_l in Hlt. by apply Qclt_not_le in Hlt. }
  split.
  - rewrite <-(Qcmult_0_l hundred). by apply Qcmult_le_compat_r.
  - rewrite <-(Qcmult_1_l hundred) at 2. by apply Qcmult_le_compat_r.
Qed.

(** C9: when the element has a usable duration [d] the timeupdate listener
    records [currentTime / d * 100]; for every position a media element
    reports, [0 ≤ currentTime ≤ d], the recorded value lies in [0, 100].
    Without a usable duration the state, and with it the recorded progress,
    is left as it was. *)
Theorem on_timeupdate_spec c audio s :
  (∀ d, duration_truthy audio = Some d →
     audioProgress (on_timeupdate c audio s) !! c
       = Some (currentTime audio / d * hundred)%Qc
     ∧ ((0 ≤ currentTime audio)%Qc → (currentTime audio ≤ d)%Qc →
        (0 ≤ currentTime audio / d * hundred)%Qc
        ∧ (currentTime audio / d * hundred ≤ hundred)%Qc))
  ∧ (duration_truthy audio = None → on_timeupdate c audio s = s).
Proof.
  unfold on_timeupdate. split.
  - intros d Hd. rewrite Hd. simpl. split; [apply lookup_insert_eq|].
    apply Qc_fraction_bounds. unfold duration_truthy in Hd.
    destruct (duration audio); [|done]. case_decide; by simplify_eq.
  - by intros ->.
Qed.

Lemma on_timeupdate_spec_witness :
  audioProgress (on_timeupdate "exercise" halfway_element init_state) !! "exercise"
    = Some (Qc_of_Z 1 / Qc_of_Z 2 * hundred)%Qc
  ∧ (0 ≤ Qc_of_Z 1 / Qc_of_Z 2 * hundred)%Qc
  ∧ (Qc_of_Z 1 / Qc_of_Z 2 * hundred ≤ hundred)%Qc
  ∧ on_timeupdate "exercise" (new_Audio "/data/nik_exercise.mp3" "exercise") init_state
    = init_state.
Proof.
  destruct (on_timeupdate_spec "exercise" halfway_element init_state) as [Hknown _].
  destruct (Hknown (Qc_of_Z 2)) as [Hp Hrange]; [done|].
  destruct Hrange as [H0 H100]; [done|done|].
  destruct (on_timeupdate_spec "exercise"
              (new_Audio "/data/nik_exercise.mp3" "exercise") init_state) as [_ Hheld].
  split; [exact Hp|]. split; [exact H0|]. split; [exact H100|]. by apply Hheld.
Defined.

(** * Further properties of the component *)
(** ** The registered elements *)

Lemma registered_sources_no_refs w : audioRefs (ui w) = ∅ → registered_sources w.
Proof. intros H c a el Hc. by rewrite H, lookup_empty in Hc. Qed.

Lemma registered_sources_same_source w w' :
  registered_sources w →
  audioRefs (ui w') = audioRefs (ui w) →
  selectedUser (ui w') = selectedUser (ui w) →
  same_source (elements w) (elements w') →
  registered_sources w'.
Proof.
  intros Hrs Hrefs Huser Hsame c a el' Hc Hel'.
  rewrite Hrefs in Hc. rewrite Huser.
  destruct (Hsame _ _ Hel') as (el & Hel & -> & ->). by eapply Hrs.
Qed.

Lemma same_source_refl els : same_source els els.
Proof. intros a el H. by exists el. Qed.

Lemma same_source_trans els1 els2 els3 :
  same_source els1 els2 → same_source els2 els3 → same_source els1 els3.
Proof.
  intros H12 H23 a el3 Hel3.
  destruct (H23 _ _ Hel3) as (el2 & Hel2 & -> & ->).
  destruct (H12 _ _ Hel2) as (el1 & Hel1 & -> & ->). by exists el1.
Qed.

Lemma same_source_alter f a els :
  (∀ el, src (f el) = src el ∧ listener_key (f el) = listener_key el) →
  same_source els (alter f a els).
Proof.
  intros Hf b el' Hb. destruct (decide (a = b)) as [->|Hne].
  - rewrite list_lookup_alter_eq in Hb.
    destruct (els !! b) as [el|]; simplify_eq/=. exists el.
    by destruct (Hf el) as [-> ->].
  - rewrite list_lookup_alter_ne in Hb by done. by exists el'.
Qed.

Lemma same_source_insert a el0 el els :
  els !! a = Some el0 → src el = src el0 → listener_key el = listener_key el0 →
  same_source els (<[a := el]> els).
Proof.
  intros Ha Hs Hk b el' Hb. destruct (decide (a = b)) as [->|Hne].
  - rewrite list_lookup_insert_eq in Hb by (by eapply lookup_lt_Some).
    simplify_eq. by exists el0.
  - rewrite list_lookup_insert_ne in Hb by done. by exists el'.
Qed.

Lemma pause_others_same_source refs audio els :
  same_source els (pause_others refs audio els).
Proof.
  unfold pause_others. induction ((map_to_list refs).*2) as [|a l IH]; simpl.
  - apply same_source_refl.
  - case_decide; [|done]. eapply same_source_trans; [exact IH|].
    by apply same_source_alter.
Qed.

Lemma handlePlayPause_registered_sources protocolType w :
  controller_inv w → registered_sources w →
  registered_sources (handlePlayPause protocolType w).
Proof.
  intros [Ha _ _] Hrs. unfold handlePlayPause.
  case_decide as Hfile; [done|].
  destruct (audioRefs (ui w) !! protocolType) as [audio|] eqn:Href.
  - case_decide as Hplaying.
    + eapply registered_sources_same_source; [exact Hrs|done|done|]. simpl.
      by apply same_source_alter.
    + eapply registered_sources_same_source; [exact Hrs|done|done|]. simpl.
      eapply same_source_trans; [apply pause_others_same_source|].
      by apply same_source_alter.
  - intros c a el Hc Hel. simpl in Hc, Hel |- *.
    destruct (decide (protocolType = c)) as [->|Hne].
    + rewrite lookup_insert_eq in Hc. simplify_eq.
      rewrite list_lookup_middle in Hel by done. by simplify_eq.
    + rewrite lookup_insert_ne in Hc by done.
      rewrite lookup_app_l in Hel by (by eapply Ha). by eapply Hrs.
Qed.

Lemma handleSeek_registered_sources protocolType event w :
  registered_sources w → registered_sources (handleSeek protocolType event w).
Proof.
  intros Hrs. unfold handleSeek.
  destruct (audioRefs (ui w) !! protocolType) as [audio|]; [|done].
  destruct (elements w !! audio) as [el|]; [|done].
  destruct (duration_truthy el) as [d|]; [|done].
  destruct (percentage_of event) as [percentage|]; [|done].
  eapply registered_sources_same_source; [exact Hrs|done|done|]. simpl.
  by apply same_source_alter.
Qed.

Lemma on_timeupdate_selectedUser c el s :
  selectedUser (on_timeupdate c el s) = selectedUser s.
Proof. unfold on_timeupdate. by destruct (duration_truthy el). Qed.

Lemma loadProtocols_end_selectedUser r s :
  selectedUser (loadProtocols_end r s) = selectedUser s.
Proof. by destruct r. Qed.

Lemma step_registered_sources server e w w' :
  controller_inv w → registered_sources w → step server e w = Some w' →
  registered_sources w'.
Proof.
  intros Hinv Hrs Hstep. destruct e; simpl in Hstep; unfold media in Hstep;
    repeat (case_match; simplify_eq/=; try done);
    try (by apply handlePlayPause_registered_sources);
    try (by apply handleSeek_registered_sources);
    try (by apply registered_sources_no_refs);
    try (eapply registered_sources_same_source; [exact Hrs|done|done|]; simpl;
         first [ apply same_source_refl
               | by apply same_source_alter
               | eapply same_source_insert; [eassumption|done|done] ]).
  - eapply registered_sources_same_source;
      [exact Hrs|apply on_timeupdate_audioRefs|apply on_timeupdate_selectedUser|]; simpl.
    eapply same_source_insert; [eassumption|done|done].
Qed.

(** X2: in every reachable state the element registered for a category was
    created for that category (its listeners report under it) from the audio
    file of the selected user for that category, which is not the empty
    string. *)
Theorem registered_element_of_selected_user server w c a el :
  reachable server w →
  audioRefs (ui w) !! c = Some a → elements w !! a = Some el →
  listener_key el = c
  ∧ src el = getAudioFile c (id (selectedUser (ui w)))
  ∧ src el ≠ "".
Proof.
  intros Hreach. revert c a el. change (registered_sources w).
  induction Hreach as [|e w w' Hreach IH Hstep].
  - by apply registered_sources_no_refs.
  - eapply step_registered_sources; [|exact IH|exact Hstep]. by eapply reachable_inv.
Qed.

Lemma registered_element_of_selected_user_witness :
  listener_key (with_paused false (new_Audio "/data/tyler_nutrition.mp3" "nutrition"))
    = "nutrition"
  ∧ src (with_paused false (new_Audio "/data/tyler_nutrition.mp3" "nutrition"))
    = getAudioFile "nutrition" (id (selectedUser (ui (after switch_and_play_trace))))
  ∧ src (with_paused false (new_Audio "/data/tyler_nutrition.mp3" "nutrition")) ≠ "".
Proof.
  apply (registered_element_of_selected_user sample_server
           (after switch_and_play_trace) "nutrition" 1).
  - apply (reachable_run sample_server switch_and_play_trace init_world);
      [apply reachable_init|]. by vm_compute.
  - by vm_compute.
  - by vm_compute.
Defined.

(** ** Starting one narration stops the others *)










(** ** Playing and pausing one narration *)




(** ** [formatTime] *)

Lemma Qfloor_unique (x : Q) (z : Z) :
  (inject_Z z <= x)%Q → (x < inject_Z (z + 1))%Q → Qfloor x = z.
Proof.
  intros Hle Hlt.
  pose proof (Qfloor_le x) as H1. pose proof (Qlt_floor x) as H2.
  assert (inject_Z z < inject_Z (Qfloor x + 1))%Q as H3 by (eapply Qle_lt_trans; eauto).
  assert (inject_Z (Qfloor x) < inject_Z (z + 1))%Q as H4 by (eapply Qle_lt_trans; eauto).
  rewrite <-Zlt_Qlt in H3, H4. lia.
Qed.

Lemma Qc_div_this (x y : Qc) : (this (x / y)%Qc == this x / this y)%Q.
Proof.
  unfold Qcdiv, Qcmult, Qcinv, Q2Qc; simpl.
  rewrite !Qred_correct. reflexivity.
Qed.

Lemma Qc_minus_mult_this (x y : Qc) (z : Z) :
  (this (x - y * Qc_of_Z z)%Qc == this x - this y * inject_Z z)%Q.
Proof.
  unfold Qcminus, Qcplus, Qcopp, Qcmult, Q2Qc, Qc_of_Z; simpl.
  rewrite !Qred_correct. reflexivity.
Qed.

Lemma Qfloor_split (x : Q) :
  (0 <= x)%Q →
  Qfloor (x / inject_Z 60) = (Qfloor x / 60)%Z
  ∧ Qfloor (x - inject_Z 60 * inject_Z (Qfloor x / 60)) = (Qfloor x mod 60)%Z.
Proof.
  intros Hx.
  pose proof (Qfloor_le x) as H1. pose proof (Qlt_floor x) as H2.
  set (n := Qfloor x) in *.
  pose proof (Z.div_mod n 60 ltac:(done)) as Hdm.
  pose proof (Z.mod_pos_bound n 60 ltac:(done)) as Hmod.
  set (m := (n / 60)%Z) in *. set (r := (n mod 60)%Z) in *.
  assert (inject_Z n == inject_Z 60 * inject_Z m + inject_Z r)%Q as Hn.
  { rewrite <-inject_Z_mult, <-inject_Z_plus. by rewrite <-Hdm. }
  assert (0 <= inject_Z r)%Q as Hr0 by (rewrite <-(Zle_Qle 0); lia).
  assert (inject_Z r + 1 <= 60)%Q as Hr1.
  { change 1%Q with (inject_Z 1). change 60%Q with (inject_Z 60).
    rewrite <-inject_Z_plus, <-Zle_Qle. lia. }
  rewrite inject_Z_plus in H2. change (inject_Z 1) with 1%Q in H2.
  change (inject_Z 60) with 60%Q in *.
  split; apply Qfloor_unique; rewrite ?inject_Z_plus; change (inject_Z 1) with 1%Q.
  - apply Qle_shift_div_l; [done|]. lra.
  - apply Qlt_shift_div_r; [done|]. lra.
  - lra.
  - lra.
Qed.

Lemma String_length_app (s t : string) :
  String.length (s +:+ t) = String.length s + String.length t.
Proof. induction s as [|a s IH]; simpl; [done|]. by rewrite IH. Qed.

(** Two concatenations with suffixes of the same length are equal only if
    the parts are. *)
Lemma String_app_inj_suffix (s1 s2 t1 t2 : string) :
  String.length t1 = String.length t2 →
  s1 +:+ t1 = s2 +:+ t2 → s1 = s2 ∧ t1 = t2.
Proof.
  intros Hlen. revert s2. induction s1 as [|a s1 IH]; intros [|b s2] Heq;
    simpl in Heq.
  - done.
  - apply (f_equal String.length) in Heq. simpl in Heq.
    rewrite !String_length_app in Heq. simpl in Heq. lia.
  - apply (f_equal String.length) in Heq. simpl in Heq.
    rewrite !String_length_app in Heq. simpl in Heq. lia.
  - simplify_eq. destruct (IH s2) as [-> ->]; done.
Qed.

Lemma two_digits :
  Forall (λ r : Z, String.length (padStart 2 "0"%char (pretty r)) = 2) (seqZ 0 60).
Proof. apply (bool_decide_unpack _). by vm_compute. Qed.

Lemma two_digits_inj :
  Forall (λ r : Z,
    Forall (λ r' : Z,
      padStart 2 "0"%char (pretty r) = padStart 2 "0"%char (pretty r') → r = r')
      (seqZ 0 60)) (seqZ 0 60).
Proof. apply (bool_decide_unpack _). by vm_compute. Qed.

Lemma formatTime_pos (x : Qc) :
  (0 ≤ x)%Qc → x ≠ 0%Qc →
  Math_floor (x / sixty)%Qc = (Qfloor x / 60)%Z
  ∧ Math_floor (js_rem x sixty) = (Qfloor x mod 60)%Z.
Proof.
  intros Hx Hne. assert (0 <= this x)%Q as Hx' by exact Hx.
  destruct (Qfloor_split (this x) Hx') as [Hm Hr].
  assert (Math_floor (x / sixty)%Qc = (Qfloor x / 60)%Z) as Hmins.
  { unfold Math_floor. by rewrite Qc_div_this. }
  split; [done|].
  unfold Math_floor, js_rem, js_trunc. rewrite decide_True.
  - fold (Math_floor (x / sixty)%Qc). rewrite Hmins.
    by rewrite Qc_minus_mult_this.
  - unfold Qcle. rewrite Qc_div_this. simpl.
    apply Qle_shift_div_l; [done|]. by rewrite Qmult_0_l.
Qed.

Lemma formatTime_minutes_seconds_aux (x : Qc) :
  (0 ≤ x)%Qc →
  formatTime (Some x)
    = pretty (Qfloor x / 60)%Z +:+ ":" +:+ padStart 2 "0"%char (pretty (Qfloor x mod 60)%Z)
  ∧ (0 ≤ Qfloor x mod 60 < 60)%Z
  ∧ String.length (padStart 2 "0"%char (pretty (Qfloor x mod 60)%Z)) = 2.
Proof.
  intros Hx.
  assert (0 ≤ Qfloor x mod 60 < 60)%Z as Hr by (by apply Z.mod_pos_bound).
  split; [|split; [done|]].
  - unfold formatTime. case_decide as H0.
    + by rewrite H0.
    + cbv zeta. by destruct (formatTime_pos x Hx H0) as [-> ->].
  - pose proof two_digits as H2. rewrite Forall_forall in H2.
    apply H2, elem_of_seqZ. lia.
Qed.

(** X4: for a time that is not negative, [formatTime] prints the whole
    minutes, a colon and the remaining whole seconds, which are below 60 and
    take exactly two characters. *)
Theorem formatTime_minutes_seconds (x : Qc) :
  (0 ≤ x)%Qc →
  formatTime (Some x)
    = pretty (Qfloor x / 60)%Z +:+ ":" +:+ padStart 2 "0"%char (pretty (Qfloor x mod 60)%Z)
  ∧ (0 ≤ Qfloor x mod 60 < 60)%Z
  ∧ String.length (padStart 2 "0"%char (pretty (Qfloor x mod 60)%Z)) = 2.
Proof. apply formatTime_minutes_seconds_aux. Qed.

Lemma formatTime_minutes_seconds_witness :
  formatTime (Some (Qc_of_Z 3725 / Qc_of_Z 10)%Qc) = "6:12".
Proof.
  destruct (formatTime_minutes_seconds (Qc_of_Z 3725 / Qc_of_Z 10)%Qc) as [-> _];
    by vm_compute.
Defined.

(** X5: two times that are not negative get the same label exactly when they
    lie in the same whole second. *)
Theorem formatTime_same_label (x y : Qc) :
  (0 ≤ x)%Qc → (0 ≤ y)%Qc →
  formatTime (Some x) = formatTime (Some y) ↔ Qfloor x = Qfloor y.
Proof.
  intros Hx Hy.
  destruct (formatTime_minutes_seconds_aux x Hx) as (Fx & Rx & Lx).
  destruct (formatTime_minutes_seconds_aux y Hy) as (Fy & Ry & Ly).
  rewrite Fx, Fy. split; [|by intros ->].
  intros Heq.
  apply String_app_inj_suffix in Heq as [Hm Hs];
    [|by rewrite !(String_length_app ":"), Lx, Ly].
  injection Hs as Hs. apply (inj pretty) in Hm.
  pose proof two_digits_inj as Hinj. rewrite Forall_forall in Hinj.
  assert (Qfloor x mod 60 = Qfloor y mod 60)%Z as Hr.
  { specialize (Hinj (Qfloor x mod 60)%Z). rewrite elem_of_seqZ, Forall_forall in Hinj.
    apply Hinj; [lia| |done]. apply elem_of_seqZ. lia. }
  rewrite (Z.div_mod (Qfloor x) 60), (Z.div_mod (Qfloor y) 60) by done.
  congruence.
Qed.

(** ** What a click on the play button leaves alone *)


(** ** Seeking *)

(** X7: [handleSeek] never starts or stops anything: the flag, the
    registrations and the recorded durations are unchanged, the recorded
    progress of the other categories is unchanged, and every element keeps
    its paused attribute, duration and source; an element other than the one
    registered for the category is not touched at all. *)
Theorem handleSeek_keeps_playback c event w :
  playingAudio (ui (handleSeek c event w)) = playingAudio (ui w)
  ∧ audioRefs (ui (handleSeek c event w)) = audioRefs (ui w)
  ∧ audioDuration (ui (handleSeek c event w)) = audioDuration (ui w)
  ∧ (∀ c', c' ≠ c →
       audioProgress (ui (handleSeek c event w)) !! c' = audioProgress (ui w) !! c')
  ∧ (∀ a el, elements w !! a = Some el →
       ∃ el', elements (handleSeek c event w) !! a = Some el'
              ∧ paused el' = paused el ∧ duration el' = duration el
              ∧ src el' = src el
              ∧ (audioRefs (ui w) !! c ≠ Some a → el' = el)).
Proof.
  unfold handleSeek.
  destruct (audioRefs (ui w) !! c) as [audio|] eqn:Href; [|by split_and!; eauto 10].
  destruct (elements w !! audio) as [el0|] eqn:Hel0; [|by split_and!; eauto 10].
  destruct (duration_truthy el0) as [d|]; [|by split_and!; eauto 10].
  destruct (percentage_of event) as [percentage|]; [|by split_and!; eauto 10].
  simpl. split_and!; try done.
  - intros c' Hne. by rewrite lookup_insert_ne.
  - intros a el Hel. destruct (decide (audio = a)) as [->|Hne].
    + eexists. rewrite list_lookup_alter_eq, Hel. by split_and!.
    + exists el. rewrite list_lookup_alter_ne by done. by split_and!.
Qed.

(** ** Metadata *)

Lemma reachable_registered_sources server w :
  reachable server w → registered_sources w.
Proof.
  induction 1 as [|e w w' Hreach IH Hstep].
  - by apply registered_sources_no_refs.
  - eapply step_registered_sources; [|exact IH|exact Hstep]. by eapply reachable_inv.
Qed.

(** X9: in a reachable state, when the element registered for a category
    reports a duration [d] other than 0, the duration is recorded under that
    category and is usable: in the state right after the event a click on a
    bar of a width other than 0 sets the position of the element to the
    clicked fraction of [d] and records that fraction times 100. *)
Theorem loadedmetadata_enables_seek server w c a d :
  reachable server w →
  audioRefs (ui w) !! c = Some a →
  d ≠ 0%Qc →
  ∃ w', step server (MediaLoadedMetadata a d) w = Some w'
        ∧ audioDuration (ui w') !! c = Some (Some d)
        ∧ known_duration w' c = Some d
        ∧ ∀ event, rect_width event ≠ 0%Qc →
            let f := ((clientX event - rect_left event) / rect_width event)%Qc in
            currentTime <$> elements (handleSeek c event w') !! a = Some (f * d)%Qc
            ∧ audioProgress (ui (handleSeek c event w')) !! c = Some (f * hundred)%Qc.
Proof.
  intros Hreach Href Hd.
  destruct (lookup_lt_is_Some_2 (elements w) a) as [el Hel].
  { by eapply (inv_alloc _ (reachable_inv _ _ Hreach)). }
  destruct (reachable_registered_sources _ _ Hreach c a el Href Hel) as (Hkey & _).
  simpl. unfold media. rewrite Hel.
  set (w' := with_ui (on_loadedmetadata (listener_key el) (with_duration (Some d) el))
               (with_elements (λ els, <[a := with_duration (Some d) el]> els) w)).
  exists w'. split; [done|].
  assert (audioRefs (ui w') !! c = Some a) as Href' by done.
  assert (elements w' !! a = Some (with_duration (Some d) el)) as Hel'.
  { simpl. apply list_lookup_insert_eq. by eapply lookup_lt_Some. }
  assert (duration_truthy (with_duration (Some d) el) = Some d) as Hdt.
  { unfold duration_truthy. simpl. by rewrite decide_False. }
  assert (audioDuration (ui w') !! c = Some (Some d)) as Hrec.
  { simpl. rewrite Hkey. apply lookup_insert_eq. }
  clearbody w'. split_and!.
  - exact Hrec.
  - unfold known_duration, element_of. rewrite Href'. simpl. by rewrite Hel'.
  - intros event Hwidth. unfold handleSeek, percentage_of.
    rewrite Href', Hel', Hdt, decide_False by done. simpl. split.
    + by rewrite list_lookup_alter_eq, Hel'.
    + apply lookup_insert_eq.
Qed.

Lemma loadedmetadata_enables_seek_witness :
  ∃ w', step sample_server (MediaLoadedMetadata 0 (Qc_of_Z 200)) (after two_clicks_trace)
          = Some w'
        ∧ audioDuration (ui w') !! "exercise" = Some (Some (Qc_of_Z 200))
        ∧ known_duration w' "exercise" = Some (Qc_of_Z 200)
        ∧ audioProgress (ui (handleSeek "exercise" half_click w')) !! "exercise"
          = Some ((Qc_of_Z 60 - Qc_of_Z 10) / Qc_of_Z 100 * hundred)%Qc.
Proof.
  destruct (loadedmetadata_enables_seek sample_server (after two_clicks_trace)
              "exercise" 0 (Qc_of_Z 200)) as (w' & Hstep & Hrec & Hknown & Hseek).
  - apply (reachable_run sample_server two_clicks_trace init_world);
      [apply reachable_init|]. by vm_compute.
  - by vm_compute.
  - done.
  - exists w'. split; [exact Hstep|]. split; [exact Hrec|]. split; [exact Hknown|].
    refine (proj2 (Hseek half_click _)). done.
Defined.

(** ** Detail fields *)

(** X10: the lookup of a detail field yields the details of the first entry
    with exactly that field name, and nothing when no entry has it. *)
Theorem find_detail_first_match field (details : list (string * string)) :
  (find_detail field details = None ↔ field ∉ details.*1)
  ∧ ∀ d, find_detail field details = Some d ↔
         ∃ i, details !! i = Some (field, d)
              ∧ ∀ j e, details !! j = Some e → j < i → e.1 ≠ field.
Proof.
  unfold find_detail. split.
  - rewrite fmap_None, list_find_None, Forall_forall. split.
    + intros Hno ([f d] & -> & Hin)%list_elem_of_fmap. by apply (Hno _ Hin).
    + intros Hno [f d] Hin Heq. simpl in Heq. subst f.
      apply Hno. apply list_elem_of_fmap. by exists (field, d).
  - intros d. rewrite fmap_Some. split.
    + intros ([i [f d']] & (Hi & Hf & Hfirst)%list_find_Some & ->). simpl in *.
      subst f. exists i. split; [done|]. intros j e Hj Hlt. by eapply Hfirst.
    + intros (i & Hi & Hfirst). exists (i, (field, d)). split; [|done].
      apply list_find_Some. split; [done|]. split; [done|].
      intros j e Hj Hlt. by eapply Hfirst.
Qed.

(** ** Opening an intervention and going back *)

(** X11: opening an intervention of a rendered protocol and going back leads
    to the list view with the same protocols rendered; no load is started
    and the playback state and the elements are as before. *)
Theorem intervention_round_trip server w p i w1 :
  step server (ClickIntervention p i) w = Some w1 →
  detail_view (ui w1) = true
  ∧ ∃ w2, step server ClickBack w1 = Some w2
          ∧ detail_view (ui w2) = false
          ∧ rendered_protocols (ui w2) = rendered_protocols (ui w)
          ∧ inflight w2 = inflight w
          ∧ elements w2 = elements w
          ∧ playingAudio (ui w2) = playingAudio (ui w)
          ∧ audioRefs (ui w2) = audioRefs (ui w)
          ∧ audioProgress (ui w2) = audioProgress (ui w)
          ∧ selectedUser (ui w2) = selectedUser (ui w).
Proof.
  intros Hstep. simpl in Hstep.
  destruct (rendered_protocols (ui w) !! p) as [protocol|] eqn:Hp; [|done].
  destruct (interventions protocol !! i) as [intervention|] eqn:Hi; [|done].
  simplify_eq. split; [done|]. simpl. eexists. split; [done|].
  assert (detail_view (ui w) = false) as Hlist.
  { destruct (detail_view (ui w)) eqn:Hd; [|done].
    unfold rendered_protocols in Hp. by rewrite Hd in Hp. }
  unfold rendered_protocols in *. rewrite Hlist. simpl. split_and!; done.
Qed.

(** ** Selecting a user *)

(** X12: a click on a user of the selector selects that user and closes the
    selector.  For another user than the selected one exactly one load is
    started, for that user, and the list is hidden until a load settles; for
    the user already selected no load is started and the loader state is
    untouched. *)
Theorem select_user_reloads server w i w' :
  step server (ClickUser i) w = Some w' →
  ∃ user, users !! i = Some user
    ∧ selectedUser (ui w') = user
    ∧ showUserSelector (ui w') = false
    ∧ protocols (ui w') = protocols (ui w)
    ∧ (user ≠ selectedUser (ui w) →
         inflight w' = (inflight w ++ [id user])%list
         ∧ loading (ui w') = true ∧ error (ui w') = None
         ∧ rendered_protocols (ui w') = [])
    ∧ (user = selectedUser (ui w) →
         inflight w' = inflight w
         ∧ loading (ui w') = loading (ui w) ∧ error (ui w') = error (ui w)
         ∧ rendered_protocols (ui w') = rendered_protocols (ui w)).
Proof.
  intros Hstep. simpl in Hstep.
  destruct (negb (detail_view (ui w)) && showUserSelector (ui w)) eqn:Hen; [|done].
  destruct (users !! i) as [user|] eqn:Hi; [|done].
  exists user. case_decide as Hsame; simplify_eq; simpl.
  - split_and!; try done.
  - split_and!; try done. intros _. split_and!; try done.
    unfold rendered_protocols. simpl. by destruct (detail_view _).
Qed.

(** X13: right after a click on a user every card is idle: the button carries
    the text of its category and not "Pause", the bar is empty and both
    times read "0:00". *)
Theorem cards_idle_after_user_switch server w i w' c :
  step server (ClickUser i) w = Some w' →
  button_label (ui w') c = getAudioButtonText c
  ∧ bar_width (ui w') c = 0%Qc
  ∧ elapsed_label w' c = "0:00"
  ∧ duration_label (ui w') c = "0:00".
Proof.
  intros Hstep. simpl in Hstep.
  destruct (negb (detail_view (ui w)) && showUserSelector (ui w)) eqn:Hen; [|done].
  destruct (users !! i) as [user|] eqn:Hi; [|done].
  case_decide as Hsame; simplify_eq;
    unfold button_label, bar_width, elapsed_label, duration_label, element_of; simpl;
    by rewrite !lookup_empty.
Qed.

(** ** The loader, whatever the order *)

(** X14: once the three fetches and the three [json()] promises have settled,
    in any order, the load is over; it ends with documents exactly when the
    three responses are ok and their bodies parse, and the documents are
    those bodies in the order supplements, nutrition, exercise. *)
Theorem loadProtocols_done_iff server userId order1 order2 :
  order1 ≡ₚ [0; 1; 2] →
  order2 ≡ₚ [0; 1; 2] →
  loadProtocols_try server userId order1 order2 ≠ LoadPending
  ∧ ∀ ps, loadProtocols_try server userId order1 order2 = LoadDone ps ↔
      ∃ D1 D2 D3, ps = [D1; D2; D3]
        ∧ server ("/data/" +:+ userId +:+ "_supplements.json")
            = Fulfilled {| ok := true; json := Fulfilled D1 |}
        ∧ server ("/data/" +:+ userId +:+ "_nutrition.json")
            = Fulfilled {| ok := true; json := Fulfilled D2 |}
        ∧ server ("/data/" +:+ userId +:+ "_exercise.json")
            = Fulfilled {| ok := true; json := Fulfilled D3 |}.
Proof.
  intros Ho1 Ho2. unfold loadProtocols_try.
  rewrite (promise_all_three _ _ _ _ Ho1).
  destruct (server _) as [[ok1 j1]|], (server _) as [[ok2 j2]|],
    (server _) as [[ok3 j3]|]; simpl;
    try (split; [done|]; intros ps; split; [done|];
         intros (? & ? & ? & _ & ? & ? & ?); done).
  destruct ok1, ok2, ok3; simpl;
    try (split; [done|]; intros ps; split; [done|];
         intros (? & ? & ? & _ & ? & ? & ?); done).
  rewrite (promise_all_three _ _ _ _ Ho2).
  destruct j1 as [D1|], j2 as [D2|], j3 as [D3|];
    try (split; [done|]; intros ps; split; [done|];
         intros (? & ? & ? & _ & ? & ? & ?); done).
  split; [done|]. intros ps. split.
  - intros ?; simplify_eq. by exists D1, D2, D3.
  - intros (? & ? & ? & -> & ? & ? & ?). by simplify_eq.
Qed.

(** ** The loading indicator *)

Lemma handlePlayPause_loader c w :
  loading (ui (handlePlayPause c w)) = loading (ui w)
  ∧ inflight (handlePlayPause c w) = inflight w.
Proof. unfold handlePlayPause. by repeat (case_match; simpl). Qed.

Lemma handleSeek_loader c event w :
  loading (ui (handleSeek c event w)) = loading (ui w)
  ∧ inflight (handleSeek c event w) = inflight w.
Proof. unfold handleSeek. by repeat (case_match; simpl). Qed.

Lemma on_timeupdate_loading c el s : loading (on_timeupdate c el s) = loading s.
Proof. unfold on_timeupdate. by destruct (duration_truthy el). Qed.

Lemma step_loading_has_load server e w w' :
  loading_has_load w → step server e w = Some w' → loading_has_load w'.
Proof.
  unfold loading_has_load. intros Hinv Hstep.
  destruct e; simpl in Hstep; unfold media in Hstep;
    repeat (case_match; simplify_eq/=; try done);
    rewrite ?on_timeupdate_loading; try done.
  - by destruct (handlePlayPause_loader protocolType w) as [-> ->].
  - by destruct (handleSeek_loader protocolType event w) as [-> ->].
  - intros _ Happ. by apply app_eq_nil in Happ as [_ ?].
Qed.

(** X15: in every reachable state, once no load is in flight the loading
    indicator is off. *)
Theorem loading_off_when_settled server w :
  reachable server w → inflight w = [] → loading (ui w) = false.
Proof.
  intros Hreach Hnone.
  assert (loading_has_load w) as Hinv.
  { clear Hnone. induction Hreach as [|e w w' Hreach IH Hstep]; [done|].
    by eapply step_loading_has_load. }
  destruct (loading (ui w)) eqn:Hl; [|done]. by destruct (Hinv Hl).
Qed.

Lemma loading_off_when_settled_witness :
  loading (ui (after stale_trace)) = false.
Proof.
  apply (loading_off_when_settled sample_server (after stale_trace)).
  - apply (reachable_run sample_server stale_trace init_world);
      [apply reachable_init|]. by vm_compute.
  - by vm_compute.
Defined.

(** ** Audio files *)

Lemma String_app_suffix (s1 s2 t1 t2 : string) :
  s1 +:+ t1 = s2 +:+ t2 → (String.length t1 ≤ String.length t2)%nat →
  ∃ x, t2 = x +:+ t1.
Proof.
  revert s1. induction s2 as [|b s2 IH]; intros s1 Heq Hlen; simpl in Heq.
  - by exists s1.
  - destruct s1 as [|a s1]; simpl in Heq.
    + apply (f_equal String.length) in Heq. simpl in Heq.
      rewrite !String_length_app in Heq. simpl in Heq. lia.
    + simplify_eq. by eapply IH.
Qed.

Lemma getAudioFile_inj type userId type' userId' :
  getAudioFile type userId ≠ "" →
  getAudioFile type userId = getAudioFile type' userId' →
  type = type' ∧ userId = userId'.
Proof.
  unfold getAudioFile. intros Hne Heq.
  repeat case_decide; subst; try done;
    apply (inj (String.app "/data/")) in Heq;
    try (apply String_app_inj_suffix in Heq as [-> _]; done);
    exfalso;
    first [ apply String_app_suffix in Heq as [x Hx]; [|simpl; lia]
          | symmetry in Heq; apply String_app_suffix in Heq as [x Hx]; [|simpl; lia] ];
    apply (f_equal String.length) in Hx as Hlen;
    rewrite String_length_app in Hlen; simpl in Hlen;
    repeat (destruct x as [|? x]; simpl in Hlen; try lia);
    simplify_eq/=.
Qed.

(** X16: the audio file of a known category for a user is the audio file of
    no other category and of no other user id. *)
Theorem getAudioFile_distinct type userId type' userId' :
  getAudioFile type userId ≠ "" →
  type ≠ type' ∨ userId ≠ userId' →
  getAudioFile type userId ≠ getAudioFile type' userId'.
Proof.
  intros Hne Hdiff Heq.
  destruct (getAudioFile_inj _ _ _ _ Hne Heq) as [-> ->]. by destruct Hdiff.
Qed.

Lemma getAudioFile_distinct_witness :
  getAudioFile "nutrition" "tyler" ≠ getAudioFile "nutrition" "nik".
Proof.
  apply (getAudioFile_distinct "nutrition" "tyler" "nutrition" "nik");
    [by vm_compute|right; by vm_compute].
Defined.

(** ** Examples *)


Lemma handleSeek_keeps_playback_witness :
  audioProgress (ui (handleSeek "exercise"
      {| clientX := Qc_of_Z 60; rect_left := Qc_of_Z 10; rect_width := Qc_of_Z 100 |}
      (after seek_trace))) !! "nutrition"
  = audioProgress (ui (after seek_trace)) !! "nutrition".
Proof.
  destruct (handleSeek_keeps_playback "exercise"
    {| clientX := Qc_of_Z 60; rect_left := Qc_of_Z 10; rect_width := Qc_of_Z 100 |}
    (after seek_trace)) as (_ & _ & _ & Hothers & _).
  by apply Hothers.
Defined.

Lemma formatTime_same_label_witness :
  formatTime (Some (Qc_of_Z 615 / Qc_of_Z 10)%Qc)
  = formatTime (Some (Qc_of_Z 619 / Qc_of_Z 10)%Qc).
Proof.
  apply (formatTime_same_label (Qc_of_Z 615 / Qc_of_Z 10)%Qc (Qc_of_Z 619 / Qc_of_Z 10)%Qc);
    by vm_compute.
Defined.

Lemma find_detail_first_match_witness :
  description_of sample_intervention = Some "X"
  ∧ benefit_summary_of sample_intervention = Some "Y"
  ∧ find_detail "Side effects" (details sample_intervention) = None.
Proof.
  split_and!.
  - apply (find_detail_first_match "Description" (details sample_intervention)).
    exists 1. split; [done|]. intros j e He Hlt.
    destruct j as [|j]; [by simplify_eq/=|lia].
  - apply (find_detail_first_match "Benefit Summary" (details sample_intervention)).
    exists 2. split; [done|]. intros j e He Hlt.
    destruct j as [|[|j]]; [by simplify_eq/=..|lia].
  - apply (find_detail_first_match "Side effects" (details sample_intervention)).
    simpl. rewrite !not_elem_of_cons. split_and!; try done. apply not_elem_of_nil.
Defined.

Lemma intervention_round_trip_witness :
  ∃ w1 w2, step sample_server (ClickIntervention 0 0) detailed_world = Some w1
           ∧ selectedIntervention (ui w1) = Some sample_intervention
           ∧ step sample_server ClickBack w1 = Some w2
           ∧ rendered_protocols (ui w2) = rendered_protocols (ui detailed_world).
Proof.
  destruct (step sample_server (ClickIntervention 0 0) detailed_world) as [w1|] eqn:Hstep;
    [|vm_compute in Hstep; discriminate].
  destruct (intervention_round_trip sample_server detailed_world 0 0 w1 Hstep)
    as (_ & w2 & Hback & _ & Hr & _).
  exists w1, w2. split; [reflexivity|]. split; [|split; [exact Hback|exact Hr]].
  vm_compute in Hstep. injection Hstep as <-. reflexivity.
Defined.

Lemma select_user_reloads_witness :
  ∃ w', step sample_server (ClickUser 1) (after (two_clicks_trace ++ [ClickUsersButton]))
          = Some w'
        ∧ inflight w' = ["tyler"] ∧ rendered_protocols (ui w') = [].
Proof.
  destruct (step sample_server (ClickUser 1)
              (after (two_clicks_trace ++ [ClickUsersButton]))) as [w'|] eqn:Hstep;
    [|vm_compute in Hstep; discriminate].
  destruct (select_user_reloads sample_server _ 1 w' Hstep)
    as (user & Hu & _ & _ & _ & Hother & _).
  vm_compute in Hu. injection Hu as <-.
  destruct Hother as (Hin & _ & _ & Hr); [vm_compute; discriminate|].
  exists w'. split; [reflexivity|]. split; [|exact Hr].
  rewrite Hin. vm_compute. reflexivity.
Defined.

Lemma cards_idle_after_user_switch_witness :
  ∃ w', step sample_server (ClickUser 1) (after (two_clicks_trace ++ [ClickUsersButton]))
          = Some w'
        ∧ button_label (ui w') "exercise" = "Explain my exercise plan"
        ∧ elapsed_label w' "exercise" = "0:00"
        ∧ paused <$> elements w' !! 0 = Some false.
Proof.
  destruct (step sample_server (ClickUser 1)
              (after (two_clicks_trace ++ [ClickUsersButton]))) as [w'|] eqn:Hstep;
    [|vm_compute in Hstep; discriminate].
  destruct (cards_idle_after_user_switch sample_server _ 1 w' "exercise" Hstep)
    as (Hb & _ & He & _).
  exists w'. split; [reflexivity|]. split; [rewrite Hb; reflexivity|]. split; [exact He|].
  vm_compute in Hstep. injection Hstep as <-. reflexivity.
Defined.

Lemma loadProtocols_done_iff_witness :
  loadProtocols_try broken_server "nik" [2; 0; 1] [1; 2; 0] ≠ LoadPending
  ∧ ∀ ps, loadProtocols_try broken_server "nik" [2; 0; 1] [1; 2; 0] ≠ LoadDone ps.
Proof.
  destruct (loadProtocols_done_iff broken_server "nik" [2; 0; 1] [1; 2; 0])
    as [Hsettled Hdone].
  - apply permutations_Permutation. by vm_compute; set_solver.
  - apply permutations_Permutation. by vm_compute; set_solver.
  - split; [exact Hsettled|]. intros ps Hps.
    apply Hdone in Hps as (? & ? & ? & _ & _ & Hn & _).
    vm_compute in Hn. discriminate.
Defined.
